(** * Moltbook API: admission control, vote ledger and comment threads

    A shallow embedding of the three pieces of the API server that carry
    state and invariants:

    - [src/middleware/rateLimit.js]: the sliding-window rate limiter;
    - the vote service (the source file [unnamed/part_001]): the vote
      ledger and its propagation of score and karma;
    - [src/services/CommentService.js]: the comment listing query, the
      comment tally update and the assembly of the reply tree;
    - the database client that the services require as
      [../config/database] (the second half of [unnamed/part_002]).

    JavaScript numbers that hold counters and millisecond clocks are
    integers well inside the exact range of a double and are modelled as
    [Z].  UUID keys are modelled as [string]. *)

From Stdlib Require Import ZArith QArith Sorting.Sorted.
From stdpp Require Import gmap strings list.

Local Open Scope string_scope.
Local Open Scope list_scope.
Local Open Scope Z_scope.

(** ** The rate limiter ([src/middleware/rateLimit.js]) *)

Module RateLimit.

(** [config.rateLimits[limitType]]: [{ max, window }], window in seconds. *)
Record limit_config := { max : Z; window : Z }.

(** An element of a key's history: [{ timestamp: now }]. *)
Record entry := { timestamp : Z }.

(** The object returned by [checkLimit]; [resetAt] is the epoch
    millisecond held by the [Date]. *)
Record decision := {
  allowed : bool;
  remaining : Z;
  limit : Z;
  resetAt : Z;
  retryAfter : Z
}.

(** [const storage = new Map()] *)
Abbreviation storage := (gmap string (list entry)).

(** [Math.min(...xs)] on a non-empty array. *)
Definition Math_min (x : Z) (xs : list Z) : Z := foldl Z.min x xs.

(** [Math.ceil(x / 1000)] for an integer [x]. *)
Definition ceil_div1000 (x : Z) : Z := - ((- x) / 1000).

Definition in_window (windowStart : Z) (e : entry) : bool :=
  windowStart <=? timestamp e.

(** [checkLimit(key, limit)], with [Date.now()] passed as [now].  The
    array produced by [filter] is a fresh one: the stored history is only
    replaced by [storage.set] in the allowed branch. *)
Definition checkLimit (now : Z) (key : string) (lim : limit_config)
    (st : storage) : decision * storage :=
  let windowStart := now - window lim * 1000 in
  let entries := default [] (st !! key) in
  let entries := List.filter (in_window windowStart) entries in
  let count := Z.of_nat (length entries) in
  let allowed := count <? max lim in
  let remaining := Z.max 0 (max lim - count - (if allowed then 1 else 0)) in
  let '(resetAt, retryAfter) :=
    match List.map timestamp entries with
    | t :: ts =>
        let oldest := Math_min t ts in
        let resetAt := oldest + window lim * 1000 in
        (resetAt, ceil_div1000 (resetAt - now))
    | [] => (now + window lim * 1000, 0)
    end in
  let st' :=
    if allowed then <[key := entries ++ [{| timestamp := now |}]]> st
    else st in
  ({| allowed := allowed;
      remaining := remaining;
      limit := max lim;
      resetAt := resetAt;
      retryAfter := if allowed then 0 else retryAfter |}, st').

(** The [setInterval] sweep: drops events older than one hour and the keys
    left without events. *)
Definition cleanup (now : Z) (st : storage) : storage :=
  let cutoff := now - 3600000 in
  omap (fun entries =>
          match List.filter (in_window cutoff) entries with
          | [] => None
          | filtered => Some filtered
          end) st.

(** A client issuing one check of the same key and limit at each of the
    given clock readings, in order. *)
Fixpoint run_checks (key : string) (lim : limit_config) (nows : list Z)
    (st : storage) : list decision * storage :=
  match nows with
  | [] => ([], st)
  | now :: nows' =>
      let '(d, st1) := checkLimit now key lim st in
      let '(ds, st2) := run_checks key lim nows' st1 in
      (d :: ds, st2)
  end.

(** All checks fall in one window: whenever a check is made, every earlier
    check of the run is still inside the window ending at that instant. *)
Definition within_one_window (lim : limit_config) (nows : list Z) : Prop :=
  forall (i j : nat) (ti tj : Z),
    (i < j)%nat -> nows !! i = Some ti -> nows !! j = Some tj ->
    tj - window lim * 1000 <= ti.

(** The clock readings of the checks of a run that were admitted. *)
Definition admitted (nows : list Z) (ds : list decision) : list Z :=
  fst <$> List.filter (fun td => allowed td.2) (zip nows ds).

(** *** The middleware *)

(** The fields of [req] that the limiter reads; a field that is absent,
    [null] or [undefined] is [None]. *)
Record request := { token : option string; ip : option string }.

(** [a || b] for values that are strings or absent: the empty string is
    falsy as well. *)
Definition or_else (a : option string) (b : string) : string :=
  match a with
  | Some (String c s) => String c s
  | _ => b
  end.

(** The character [:] that separates the parts of a key. *)
Definition colon : Ascii.ascii :=
  Ascii.Ascii false true false true true true false false.

(** [getKey(req, limitType)] *)
Definition getKey (req : request) (limitType : string) : string :=
  let identifier := or_else (token req) (or_else (ip req) "anonymous") in
  String.append "rl:"
    (String.append limitType (String.append ":" identifier)).

(** [new RateLimitError(message, retryAfter)] *)
Inductive rate_error := RateLimitError (message : string) (retryAfter : Z).

(** The [options] of [rateLimit]; a field left out is [None]. *)
Record options := {
  skip : option (request -> bool);
  keyGenerator : option (request -> string);
  message : option string
}.

(** What one run of the middleware leaves: the headers of [res], the
    [req.rateLimit] it attached, and the argument of [next] ([None] for
    [next()]). *)
Record handled := {
  res_headers : gmap string Z;
  req_rateLimit : option decision;
  next_error : option rate_error
}.

(** [rateLimit(limitType = 'requests', options = {})], with
    [config.rateLimits] passed as [rateLimits].  The result is [None] when
    the call throws for an unknown limit type; otherwise it is the
    middleware, which takes [Date.now()], the request, the headers already
    set on [res] and the storage. *)
Definition rateLimit (rateLimits : gmap string limit_config)
    (limitType : option string) (opts : options)
    : option (Z -> request -> gmap string Z -> storage -> handled * storage) :=
  let limitType := default "requests" limitType in
  match rateLimits !! limitType with
  | None => None
  | Some lim =>
      let skip := default (fun _ => false) (skip opts) in
      let keyGenerator :=
        default (fun req => getKey req limitType) (keyGenerator opts) in
      let message := default "Rate limit exceeded" (message opts) in
      Some (fun now req headers st =>
        if skip req then
          ({| res_headers := headers; req_rateLimit := None;
              next_error := None |}, st)
        else
          let key := keyGenerator req in
          let '(result, st') := checkLimit now key lim st in
          let headers := <["X-RateLimit-Limit" := limit result]> headers in
          let headers :=
            <["X-RateLimit-Remaining" := remaining result]> headers in
          let headers :=
            <["X-RateLimit-Reset" := resetAt result / 1000]> headers in
          if negb (allowed result) then
            ({| res_headers := <["Retry-After" := retryAfter result]> headers;
                req_rateLimit := None;
                next_error :=
                  Some (RateLimitError message (retryAfter result)) |}, st')
          else
            ({| res_headers := headers; req_rateLimit := Some result;
                next_error := None |}, st'))
  end.

End RateLimit.

(** ** The relational store ([scripts/schema.sql]) *)

(** One row type per table, with the columns the services read or write.
    Tables with a UUID primary key are maps from the key to the row. *)

Module Agents.
Record row := { name : string; display_name : option string; karma : Z }.
End Agents.

Module Posts.
Record row := { author_id : string; score : Z }.
End Posts.

Module Comments.
Record row := {
  post_id : string;
  author_id : string;
  parent_id : option string;
  content : string;
  score : Z;
  upvotes : Z;
  downvotes : Z;
  depth : Z;
  created_at : Z
}.
End Comments.

Module Votes.
(** The primary key comes from [uuid_generate_v4()]; it is modelled by a
    number drawn from a sequence that never repeats. *)
Record row := {
  id : nat;
  agent_id : string;
  target_id : string;
  target_type : string;
  value : Z
}.

(** The columns of [UNIQUE(agent_id, target_id, target_type)]. *)
Definition key (v : row) : string * string * string :=
  (agent_id v, target_id v, target_type v).
End Votes.

Record tables := {
  agents : gmap string Agents.row;
  posts : gmap string Posts.row;
  comments : gmap string Comments.row;
  votes : list Votes.row;
  votes_seq : nat
}.

(** ** Exceptions and the database client ([config/database]) *)

Inductive error :=
| BadRequestError (message : string)
| NotFoundError (resource : string)
| ReferenceError (identifier : string)
| DatabaseError (message : string).

Inductive result (A : Type) :=
| Ok (a : A)
| Throw (e : error).
Arguments Ok {A} a.
Arguments Throw {A} e.

(** What an [async] function of a service runs against: the committed
    tables, and how many more statements the connection pool will execute
    before [db.query] starts rejecting ([None]: it never does). *)
Record world := { db : tables; queries_left : option nat }.

(** An [async] function: it may change the world and either returns or
    throws.  What was committed before a throw stays committed. *)
Definition M (A : Type) : Type := world -> result A * world.

Definition ret {A} (a : A) : M A := fun w => (Ok a, w).

Definition throw {A} (e : error) : M A := fun w => (Throw e, w).

Definition bind {A B} (m : M A) (k : A -> M B) : M B := fun w =>
  match m w with
  | (Ok a, w') => k a w'
  | (Throw e, w') => (Throw e, w')
  end.

Notation "x <- m ;; k" := (bind m (fun x => k))
  (at level 100, m at next level, right associativity).
Notation "m ;;; k" := (bind m (fun _ => k))
  (at level 100, right associativity).

(** A world whose database never rejects a statement for lack of a
    connection. *)
Definition available (t : tables) : world :=
  {| db := t; queries_left := None |}.

Module Database.

(** A statement: the rows it returns and the tables it leaves, or [None]
    when the server rejects it (a violated constraint). *)
Definition statement (R : Type) : Type := tables -> option (list R * tables).

(** [query(text, params)]: each call is its own implicit transaction,
    committed when it returns. *)
Definition query {R} (stmt : statement R) : M (list R) := fun w =>
  match queries_left w with
  | Some O => (Throw (DatabaseError "connection terminated"), w)
  | budget =>
      match stmt (db w) with
      | Some (rows, t) =>
          (Ok rows, {| db := t; queries_left := Nat.pred <$> budget |})
      | None =>
          (Throw (DatabaseError "constraint violated"),
           {| db := db w; queries_left := Nat.pred <$> budget |})
      end
  end.

(** [queryOne]: [result.rows[0] || null]. *)
Definition queryOne {R} (stmt : statement R) : M (option R) :=
  rows <- query stmt ;; ret (head rows).

(** [queryAll]: [result.rows]. *)
Definition queryAll {R} (stmt : statement R) : M (list R) := query stmt.

(** [transaction(callback)]: [BEGIN], the callback, [COMMIT]; on a throw
    [ROLLBACK] and rethrow. *)
Definition transaction {A} (callback : M A) : M A := fun w =>
  match callback w with
  | (Ok a, w') => (Ok a, w')
  | (Throw e, w') =>
      (Throw e, {| db := db w; queries_left := queries_left w' |})
  end.

(** The names a module takes from [require('../config/database')].  A
    name used in the module but not taken is a free identifier, and
    evaluating it throws a [ReferenceError]. *)
Definition binding {A} (imported : list string) (identifier : string)
    (f : M A) : M A :=
  if bool_decide (identifier ∈ imported) then f
  else throw (ReferenceError (identifier ++ " is not defined")).

End Database.

(** ** Collaborators that the vote ledger calls *)

Module PostService.

(** Modelled from the spec: the statement behind
    [applyScoreDelta(targetId, delta)] for a post, which adds the delta to
    the stored score of the post when the post exists. *)
Definition update_score (postId : string) (delta : Z)
    : Database.statement unit := fun t =>
  Some ([], {| agents := agents t;
               posts := alter (fun p => {| Posts.author_id := Posts.author_id p;
                                           Posts.score := Posts.score p + delta |})
                              postId (posts t);
               comments := comments t;
               votes := votes t;
               votes_seq := votes_seq t |}).

(** Modelled from the spec: [PostService.updateScore] is called by the
    ledger but its file is not part of the sources; the spec gives it as
    [applyScoreDelta(targetId, delta)], one atomic statement that adds the
    delta to the stored score of the post. *)
Definition updateScore (postId : string) (delta : Z) : M unit :=
  Database.queryOne (update_score postId delta) ;;; ret tt.

End PostService.

Module AgentService.

(** Modelled from the spec: the statement behind
    [applyKarmaDelta(agentId, delta)], which adds the delta to the stored
    karma of the agent when the agent exists. *)
Definition update_karma (agentId : string) (delta : Z)
    : Database.statement unit := fun t =>
  Some ([], {| agents := alter (fun a => {| Agents.name := Agents.name a;
                                            Agents.display_name := Agents.display_name a;
                                            Agents.karma := Agents.karma a + delta |})
                               agentId (agents t);
               posts := posts t;
               comments := comments t;
               votes := votes t;
               votes_seq := votes_seq t |}).

(** Modelled from the spec: [AgentService.updateKarma] is called by the
    ledger but its file is not part of the sources; the spec gives it as
    [applyKarmaDelta(agentId, delta)], one atomic statement that adds the
    delta to the stored karma of the agent. *)
Definition updateKarma (agentId : string) (delta : Z) : M unit :=
  Database.queryOne (update_karma agentId delta) ;;; ret tt.

(** Modelled from the spec: the read of one agent by its key. *)
Definition select_agent (agentId : string)
    : Database.statement Agents.row := fun t =>
  Some (option_list (agents t !! agentId), t).

(** Modelled from the spec: [AgentService.findById] is called by the
    ledger for the affected author of its answer but its file is not part
    of the sources; it reads the agent's row, [null] when there is none. *)
Definition findById (agentId : string) : M (option Agents.row) :=
  Database.queryOne (select_agent agentId).

End AgentService.

(** ** Comments ([src/services/CommentService.js]) *)

Module CommentService.

(** [const { queryOne, queryAll, transaction } = require('../config/database')] *)
Definition imported : list string := ["queryOne"; "queryAll"; "transaction"].

Definition queryOne {R} (stmt : Database.statement R) : M (option R) :=
  Database.binding imported "queryOne" (Database.queryOne stmt).

Definition queryAll {R} (stmt : Database.statement R) : M (list R) :=
  Database.binding imported "queryAll" (Database.queryAll stmt).

(** A row of the listing query of [getByPost]. *)
Record comment := {
  id : string;
  content : string;
  score : Z;
  upvotes : Z;
  downvotes : Z;
  parent_id : option string;
  depth : Z;
  created_at : Z;
  author_name : string;
  author_display_name : option string
}.

(** *** The [ORDER BY] clause *)

Inductive direction := ASC | DESC.

(** One term of an [ORDER BY]: an integer expression over the row and its
    direction. *)
Definition order_term : Type := (comment -> Z) * direction.

(** [(c.upvotes + c.downvotes) *
     (1 - ABS(c.upvotes - c.downvotes) / GREATEST(c.upvotes + c.downvotes, 1))]
    over the [INTEGER] columns of the schema: every operand is an integer,
    and [/] between integers is PostgreSQL's integer division, which
    truncates toward zero. *)
Definition controversial (c : comment) : Z :=
  (upvotes c + downvotes c) *
  (1 - Z.quot (Z.abs (upvotes c - downvotes c))
              (Z.max (upvotes c + downvotes c) 1)).

(** The [switch (sort)] of [getByPost]. *)
Definition orderBy (sort : string) : list order_term :=
  if decide (sort = "new") then [(created_at, DESC)]
  else if decide (sort = "controversial") then [(controversial, DESC)]
  else [(score, DESC); (created_at, ASC)].

(** [precedes clause a b]: the clause lets row [a] stand before row [b];
    the first term on which the rows differ decides. *)
Fixpoint precedes (clause : list order_term) (a b : comment) : bool :=
  match clause with
  | [] => true
  | (col, dir) :: rest =>
      let '(x, y) := match dir with
                     | ASC => (col a, col b)
                     | DESC => (col b, col a)
                     end in
      if x <? y then true
      else if y <? x then false
      else precedes rest a b
  end.

Fixpoint insert_row (clause : list order_term) (r : comment)
    (sorted : list comment) : list comment :=
  match sorted with
  | [] => [r]
  | x :: xs =>
      if precedes clause r x then r :: x :: xs
      else x :: insert_row clause r xs
  end.

(** [ORDER BY clause]: rows that the clause does not tell apart keep the
    order of the scan. *)
Definition order_by (clause : list order_term) (rows : list comment)
    : list comment :=
  foldr (insert_row clause) [] rows.

(** [FROM comments c JOIN agents a ON c.author_id = a.id
     WHERE c.post_id = $1] *)
Definition joined (postId : string) (t : tables) : list comment :=
  omap (fun '(cid, c) =>
          if decide (Comments.post_id c = postId) then
            a ← agents t !! Comments.author_id c;
            Some {| id := cid;
                    content := Comments.content c;
                    score := Comments.score c;
                    upvotes := Comments.upvotes c;
                    downvotes := Comments.downvotes c;
                    parent_id := Comments.parent_id c;
                    depth := Comments.depth c;
                    created_at := Comments.created_at c;
                    author_name := Agents.name a;
                    author_display_name := Agents.display_name a |}
          else None)
       (map_to_list (comments t)).

(** [SELECT ... ORDER BY c.depth ASC, ${orderBy} LIMIT $2] *)
Definition select_by_post (postId : string) (sort : string) (limit : nat)
    : Database.statement comment := fun t =>
  Some (take limit (order_by ((depth, ASC) :: orderBy sort) (joined postId t)),
        t).

(** *** The reply tree *)

(** The objects of the [comments] array after [comment.replies = []]: the
    row and the array of replies.  An object is known by its position in
    the input array, and [replies] and [rootComments] hold references to
    objects, not copies. *)
Record node := { row : comment; replies : list nat }.

Record tree := { rootComments : list nat; objects : list node }.

(** The truth value of [comment.parent_id]. *)
Definition truthy (v : option string) : bool :=
  match v with
  | Some s => negb (String.eqb s "")
  | None => false
  end.

Definition indexed (comments : list comment) : list (nat * comment) :=
  imap pair comments.

(** First pass: [comment.replies = []; commentMap.set(comment.id, comment)]. *)
Definition first_pass (comments : list comment)
    : list node * gmap string nat :=
  ((fun c => {| row := c; replies := [] |}) <$> comments,
   foldl (fun commentMap '(ref, c) => <[id c := ref]> commentMap)
         ∅ (indexed comments)).

(** The object that [commentMap.get(comment.parent_id)] will be pushed
    to, when the condition of the second pass holds. *)
Definition parent_in (commentMap : gmap string nat) (c : comment)
    : option nat :=
  if truthy (parent_id c) then parent_id c ≫= (commentMap !!.) else None.

Definition push (ref : nat) (n : node) : node :=
  {| row := row n; replies := replies n ++ [ref] |}.

(** The body of the second loop, for the comment at position [ref]. *)
Definition attach (commentMap : gmap string nat) (t : tree)
    (rc : nat * comment) : tree :=
  let '(ref, c) := rc in
  match parent_in commentMap c with
  | Some p => {| rootComments := rootComments t;
                 objects := alter (push ref) p (objects t) |}
  | None => {| rootComments := rootComments t ++ [ref];
               objects := objects t |}
  end.

(** Second pass. *)
Definition second_pass (commentMap : gmap string nat)
    (comments : list comment) (objs : list node) : tree :=
  foldl (attach commentMap) {| rootComments := []; objects := objs |}
        (indexed comments).

Definition buildCommentTree (comments : list comment) : tree :=
  let '(objs, commentMap) := first_pass comments in
  second_pass commentMap comments objs.

(** [getByPost(postId, { sort = 'top', limit = 100 })] *)
Definition getByPost (postId : string) (sort : option string)
    (limit : option nat) : M tree :=
  let sort := default "top" sort in
  let limit := default 100%nat limit in
  comments <- queryAll (select_by_post postId sort limit) ;;
  ret (buildCommentTree comments).

(** Reading a tree back by ids. *)
Definition ids_of (t : tree) (refs : list nat) : list string :=
  omap (fun ref => id ∘ row <$> objects t !! ref) refs.

Definition root_ids (t : tree) : list string := ids_of t (rootComments t).

Definition reply_ids (t : tree) (parent : string) : option (list string) :=
  n ← List.find (fun n => String.eqb (id (row n)) parent) (objects t);
  Some (ids_of t (replies n)).

(** *** The tally update *)

Inductive vote_field := upvotes_field | downvotes_field.

(** [UPDATE comments SET score = score + $2,
     ${voteField} = ${voteField} + $3 WHERE id = $1 RETURNING score] *)
Definition update_score (commentId : string) (delta : Z)
    (voteField : vote_field) (voteChange : Z) : Database.statement Z :=
  fun t =>
  let set (c : Comments.row) :=
    {| Comments.post_id := Comments.post_id c;
       Comments.author_id := Comments.author_id c;
       Comments.parent_id := Comments.parent_id c;
       Comments.content := Comments.content c;
       Comments.score := Comments.score c + delta;
       Comments.upvotes :=
         match voteField with
         | upvotes_field => Comments.upvotes c + voteChange
         | downvotes_field => Comments.upvotes c
         end;
       Comments.downvotes :=
         match voteField with
         | upvotes_field => Comments.downvotes c
         | downvotes_field => Comments.downvotes c + voteChange
         end;
       Comments.depth := Comments.depth c;
       Comments.created_at := Comments.created_at c |} in
  let comments' := alter set commentId (comments t) in
  Some (option_list (Comments.score <$> comments' !! commentId),
        {| agents := agents t;
           posts := posts t;
           comments := comments';
           votes := votes t;
           votes_seq := votes_seq t |}).

(** [updateScore(commentId, delta, isUpvote)] *)
Definition updateScore (commentId : string) (delta : Z) (isUpvote : bool)
    : M Z :=
  let voteField := if isUpvote then upvotes_field else downvotes_field in
  let voteChange := if 0 <? delta then 1 else -1 in
  result <- queryOne (update_score commentId delta voteField voteChange) ;;
  ret (default 0 result).

(** *** Creating a comment *)

Section Create.

(** [String.prototype.trim] and the [length] of a string in JavaScript
    (UTF-16 code units) are left abstract. *)
Variable trim : string -> string.
Variable length_of : string -> Z.

(** [PostService.incrementCommentCount], whose file is not among the
    sources. *)
Variable incrementCommentCount : string -> M unit.

(** The argument of [create]; [content] is [None] when it is left out, and
    [parentId] defaults to [null]. *)
Record create_params := {
  new_postId : string;
  new_authorId : string;
  new_content : option string;
  new_parentId : option string
}.

(** A row of [RETURNING id, content, score, depth, created_at]. *)
Record created := {
  created_id : string;
  created_content : string;
  created_score : Z;
  created_depth : Z;
  created_created_at : Z
}.

(** [SELECT id FROM posts WHERE id = $1] *)
Definition select_post_id (postId : string) : Database.statement string :=
  fun t => Some (option_list ((fun _ => postId) <$> posts t !! postId), t).

(** [SELECT id, depth FROM comments WHERE id = $1 AND post_id = $2] *)
Definition select_parent (parentId postId : string)
    : Database.statement (string * Z) := fun t =>
  Some (option_list
          (c ← comments t !! parentId;
           if decide (Comments.post_id c = postId)
           then Some (parentId, Comments.depth c) else None), t).

(** [INSERT INTO comments (post_id, author_id, content, parent_id, depth)
     VALUES ($1, $2, $3, $4, $5)
     RETURNING id, content, score, depth, created_at].  The key drawn by
    [uuid_generate_v4()] is passed as [newId] and [NOW()] as [now]; the
    counters take their default 0.  The statement is rejected when the key
    is taken or when a [REFERENCES] constraint of the schema fails. *)
Definition insert_comment (newId : string) (now : Z)
    (postId authorId content : string) (parentId : option string) (depth : Z)
    : Database.statement created := fun t =>
  if bool_decide (comments t !! newId = None)
     && bool_decide (is_Some (posts t !! postId))
     && bool_decide (is_Some (agents t !! authorId))
     && match parentId with
        | Some parent => bool_decide (is_Some (comments t !! parent))
        | None => true
        end
  then
    Some ([{| created_id := newId; created_content := content;
              created_score := 0; created_depth := depth;
              created_created_at := now |}],
          {| agents := agents t;
             posts := posts t;
             comments :=
               <[newId := {| Comments.post_id := postId;
                             Comments.author_id := authorId;
                             Comments.parent_id := parentId;
                             Comments.content := content;
                             Comments.score := 0;
                             Comments.upvotes := 0;
                             Comments.downvotes := 0;
                             Comments.depth := depth;
                             Comments.created_at := now |}]> (comments t);
             votes := votes t;
             votes_seq := votes_seq t |})
  else None.

(** [create({ postId, authorId, content, parentId = null })] *)
Definition create (newId : string) (now : Z) (p : create_params)
    : M (option created) :=
  match new_content p with
  | None | Some "" => throw (BadRequestError "Content is required")
  | Some content =>
      if decide (length_of (trim content) = 0) then
        throw (BadRequestError "Content is required")
      else if 10000 <? length_of content then
        throw (BadRequestError "Content must be 10000 characters or less")
      else
        post <- queryOne (select_post_id (new_postId p)) ;;
        match post with
        | None => throw (NotFoundError "Post")
        | Some _ =>
            depth <-
              (if truthy (new_parentId p) then
                 parent <- queryOne (select_parent
                                       (default "" (new_parentId p))
                                       (new_postId p)) ;;
                 match parent with
                 | None => throw (NotFoundError "Parent comment")
                 | Some parent =>
                     let depth := parent.2 + 1 in
                     if 10 <? depth then
                       throw (BadRequestError "Maximum comment depth exceeded")
                     else ret depth
                 end
               else ret 0) ;;
            comment <- queryOne (insert_comment newId now (new_postId p)
                                   (new_authorId p) (trim content)
                                   (new_parentId p) depth) ;;
            incrementCommentCount (new_postId p) ;;;
            ret comment
        end
  end.

End Create.

(** What [create] keeps of the comments of a store: every depth is between
    0 and 10, a comment without parent has depth 0, and a reply has its
    parent stored under the same post, one level above it. *)
Definition threaded (t : tables) : Prop :=
  forall cid c,
    comments t !! cid = Some c ->
    0 <= Comments.depth c <= 10 /\
    match Comments.parent_id c with
    | None => Comments.depth c = 0
    | Some parent =>
        exists pc, comments t !! parent = Some pc /\
                   Comments.post_id pc = Comments.post_id c /\
                   Comments.depth c = Comments.depth pc + 1
    end.

End CommentService.

(** ** The vote ledger ([VoteService], in [unnamed/part_001]) *)

Module VoteService.

(** [const { queryOne, transaction } = require('../config/database')] *)
Definition imported : list string := ["queryOne"; "transaction"].

Definition queryOne {R} (stmt : Database.statement R) : M (option R) :=
  Database.binding imported "queryOne" (Database.queryOne stmt).

Definition queryAll {R} (stmt : Database.statement R) : M (list R) :=
  Database.binding imported "queryAll" (Database.queryAll stmt).

Definition VOTE_UP : Z := 1.
Definition VOTE_DOWN : Z := -1.

(** The argument of [vote]. *)
Record params := {
  targetId : string;
  targetType : string;
  agentId : string;
  value : Z
}.

(** A row of [SELECT id, author_id FROM ...]. *)
Record target := { id : string; author_id : string }.

(** The object returned by [vote]; [author] is [{ name }] or [null]. *)
Record response := {
  success : bool;
  message : string;
  action : string;
  author : option string
}.

(** *** Statements *)

(** [SELECT id, author_id FROM posts WHERE id = $1] *)
Definition select_post (targetId : string) : Database.statement target :=
  fun t =>
  Some (option_list
          ((fun p => {| id := targetId; author_id := Posts.author_id p |})
             <$> posts t !! targetId), t).

(** [SELECT id, author_id FROM comments WHERE id = $1] *)
Definition select_comment (targetId : string) : Database.statement target :=
  fun t =>
  Some (option_list
          ((fun c => {| id := targetId; author_id := Comments.author_id c |})
             <$> comments t !! targetId), t).

Definition is_vote_of (agentId targetId targetType : string)
    (v : Votes.row) : bool :=
  bool_decide (Votes.key v = (agentId, targetId, targetType)).

(** [SELECT id, value FROM votes
     WHERE agent_id = $1 AND target_id = $2 AND target_type = $3] *)
Definition select_vote (agentId targetId targetType : string)
    : Database.statement Votes.row := fun t =>
  Some (List.filter (is_vote_of agentId targetId targetType) (votes t), t).

Definition with_votes (t : tables) (vs : list Votes.row) (seq : nat)
    : tables :=
  {| agents := agents t;
     posts := posts t;
     comments := comments t;
     votes := vs;
     votes_seq := seq |}.

(** [DELETE FROM votes WHERE id = $1] *)
Definition delete_vote (voteId : nat) : Database.statement unit := fun t =>
  Some ([], with_votes t
              (List.filter (fun v => negb (Votes.id v =? voteId)%nat) (votes t))
              (votes_seq t)).

(** [UPDATE votes SET value = $2 WHERE id = $1] *)
Definition update_vote (voteId : nat) (value : Z)
    : Database.statement unit := fun t =>
  Some ([], with_votes t
              (List.map (fun v =>
                           if (Votes.id v =? voteId)%nat then
                             {| Votes.id := Votes.id v;
                                Votes.agent_id := Votes.agent_id v;
                                Votes.target_id := Votes.target_id v;
                                Votes.target_type := Votes.target_type v;
                                Votes.value := value |}
                           else v) (votes t))
              (votes_seq t)).

(** [INSERT INTO votes (agent_id, target_id, target_type, value)
     VALUES ($1, $2, $3, $4)], rejected when it would break
    [UNIQUE(agent_id, target_id, target_type)]. *)
Definition insert_vote (agentId targetId targetType : string) (value : Z)
    : Database.statement unit := fun t =>
  if existsb (is_vote_of agentId targetId targetType) (votes t) then None
  else
    Some ([], with_votes t
                (votes t ++ [{| Votes.id := votes_seq t;
                                Votes.agent_id := agentId;
                                Votes.target_id := targetId;
                                Votes.target_type := targetType;
                                Votes.value := value |}])
                (S (votes_seq t))).

(** [SELECT target_id, value FROM votes
     WHERE agent_id = $1 AND target_type = '...' AND target_id = ANY($2)] *)
Definition select_votes (agentId targetType : string) (ids : list string)
    : Database.statement (string * Z) := fun t =>
  Some (List.map (fun v => (Votes.target_id v, Votes.value v))
          (List.filter
             (fun v => bool_decide (Votes.agent_id v = agentId)
                       && bool_decide (Votes.target_type v = targetType)
                       && bool_decide (Votes.target_id v ∈ ids))
             (votes t)), t).

(** *** Functions *)

(** [getTarget(targetId, targetType)] *)
Definition getTarget (targetId targetType : string) : M target :=
  target <-
    (if decide (targetType = "post") then queryOne (select_post targetId)
     else if decide (targetType = "comment") then
       queryOne (select_comment targetId)
     else throw (BadRequestError "Invalid target type")) ;;
  match target with
  | None =>
      throw (NotFoundError
               (if decide (targetType = "post") then "Post" else "Comment"))
  | Some target => ret target
  end.

(** [vote({ targetId, targetType, agentId, value })] *)
Definition vote (p : params) : M response :=
  let '{| targetId := targetId; targetType := targetType;
          agentId := agentId; value := value |} := p in
  target <- getTarget targetId targetType ;;
  if decide (author_id target = agentId) then
    throw (BadRequestError "Cannot vote on your own content")
  else
  existingVote <- queryOne (select_vote agentId targetId targetType) ;;
  assigned <-
    match existingVote with
    | Some existingVote =>
        if decide (Votes.value existingVote = value) then
          queryOne (delete_vote (Votes.id existingVote)) ;;;
          ret ("removed", - value, - value)
        else
          queryOne (update_vote (Votes.id existingVote) value) ;;;
          ret ("changed", value * 2, value * 2)
    | None =>
        queryOne (insert_vote agentId targetId targetType value) ;;;
        ret (if decide (value = VOTE_UP) then "upvoted" else "downvoted",
             value, value)
    end ;;
  let '(action, scoreDelta, karmaDelta) := assigned in
  (if decide (targetType = "post") then
     PostService.updateScore targetId scoreDelta
   else
     CommentService.updateScore targetId scoreDelta
       (bool_decide (value = VOTE_UP)) ;;; ret tt) ;;;
  AgentService.updateKarma (author_id target) karmaDelta ;;;
  author <- AgentService.findById (author_id target) ;;
  ret {| success := true;
         message := if decide (action = "upvoted") then "Upvoted!"
                    else if decide (action = "downvoted") then "Downvoted!"
                    else if decide (action = "removed") then "Vote removed!"
                    else "Vote changed!";
         action := action;
         author := Agents.name <$> author |}.

Definition upvotePost (postId agentId : string) : M response :=
  vote {| targetId := postId; targetType := "post";
          agentId := agentId; value := VOTE_UP |}.

Definition downvotePost (postId agentId : string) : M response :=
  vote {| targetId := postId; targetType := "post";
          agentId := agentId; value := VOTE_DOWN |}.

Definition upvoteComment (commentId agentId : string) : M response :=
  vote {| targetId := commentId; targetType := "comment";
          agentId := agentId; value := VOTE_UP |}.

Definition downvoteComment (commentId agentId : string) : M response :=
  vote {| targetId := commentId; targetType := "comment";
          agentId := agentId; value := VOTE_DOWN |}.

(** An element of the [targets] array of [getVotes]. *)
Record target_ref := { ref_targetId : string; ref_targetType : string }.

(** [votes.forEach(v => results.set(v.target_id, v.value))] *)
Definition set_all (results : gmap string Z) (votes : list (string * Z))
    : gmap string Z :=
  foldl (fun results v => <[v.1 := v.2]> results) results votes.

(** [getVotes(agentId, targets)] *)
Definition getVotes (agentId : string) (targets : list target_ref)
    : M (gmap string Z) :=
  if decide (length targets = 0%nat) then ret ∅ else
  let postIds :=
    List.map ref_targetId
      (List.filter (fun t => bool_decide (ref_targetType t = "post")) targets) in
  let commentIds :=
    List.map ref_targetId
      (List.filter (fun t => bool_decide (ref_targetType t = "comment")) targets) in
  let results : gmap string Z := ∅ in
  results <-
    (if decide (0 < length postIds)%nat then
       votes <- queryAll (select_votes agentId "post" postIds) ;;
       ret (set_all results votes)
     else ret results) ;;
  results <-
    (if decide (0 < length commentIds)%nat then
       votes <- queryAll (select_votes agentId "comment" commentIds) ;;
       ret (set_all results votes)
     else ret results) ;;
  ret results.

(** *** What a reader of the store sees *)

(** The value of the vote stored for a triple, if any. *)
Definition stored_vote (t : tables) (agentId targetId targetType : string)
    : option Z :=
  Votes.value <$>
    List.find (is_vote_of agentId targetId targetType) (votes t).

(** How many rows the ledger holds for a triple. *)
Definition stored_rows (t : tables) (agentId targetId targetType : string)
    : nat :=
  length (List.filter (is_vote_of agentId targetId targetType) (votes t)).

(** The score counter of a target. *)
Definition target_score (t : tables) (targetId targetType : string)
    : option Z :=
  if decide (targetType = "post") then Posts.score <$> posts t !! targetId
  else Comments.score <$> comments t !! targetId.

(** The author recorded for a target. *)
Definition target_author (t : tables) (targetId targetType : string)
    : option string :=
  if decide (targetType = "post") then
    Posts.author_id <$> posts t !! targetId
  else if decide (targetType = "comment") then
    Comments.author_id <$> comments t !! targetId
  else None.

Definition karma_of (t : tables) (agentId : string) : option Z :=
  Agents.karma <$> agents t !! agentId.

(** The number of stored votes of a given value on a comment. *)
Definition count_votes (t : tables) (commentId : string) (value : Z) : Z :=
  Z.of_nat (length (List.filter
    (fun v => bool_decide (Votes.target_id v = commentId)
              && bool_decide (Votes.target_type v = "comment")
              && (Votes.value v =? value))
    (votes t))).

(** The transition table of the ledger as the specification gives it:
    for the stored value (or its absence) and the requested value, the
    value stored afterwards, the reported action and the delta applied to
    both the score and the karma. *)
Definition spec_transition (current : option Z) (requested : Z)
    : option (option Z * string * Z) :=
  match current, requested with
  | None, 1 => Some (Some 1, "upvoted", 1)
  | None, -1 => Some (Some (-1), "downvoted", -1)
  | Some 1, 1 => Some (None, "removed", -1)
  | Some (-1), -1 => Some (None, "removed", 1)
  | Some 1, -1 => Some (Some (-1), "changed", -2)
  | Some (-1), 1 => Some (Some 1, "changed", 2)
  | _, _ => None
  end.

(** *** Reading one vote, and the constraints of the ledger *)

(** [getVote(agentId, targetId, targetType)]: [vote?.value || null]. *)
Definition getVote (agentId targetId targetType : string) : M (option Z) :=
  row <- queryOne (select_vote agentId targetId targetType) ;;
  ret (match row with
       | Some row =>
           if decide (Votes.value row = 0) then None
           else Some (Votes.value row)
       | None => None
       end).

(** What [scripts/schema.sql] asks of the [votes] table: one row per
    triple, one row per primary key, and (for the sequence that stands for
    [uuid_generate_v4()]) every key in use already drawn. *)
Definition ledger_ok (t : tables) : Prop :=
  NoDup (Votes.key <$> votes t) /\
  NoDup (Votes.id <$> votes t) /\
  Forall (fun v => (Votes.id v < votes_seq t)%nat) (votes t).

Definition on_target (targetId targetType : string) (v : Votes.row) : bool :=
  bool_decide (Votes.target_id v = targetId)
  && bool_decide (Votes.target_type v = targetType).

(** The sum of the values of the votes stored on a target. *)
Definition vote_sum (t : tables) (targetId targetType : string) : Z :=
  foldr Z.add 0
    (Votes.value <$> List.filter (on_target targetId targetType) (votes t)).

(** The [votes] table and its sequence after the one statement that [vote]
    issues on the table. *)
Definition ledger_after (t : tables) (p : params) : list Votes.row * nat :=
  match List.find (is_vote_of (agentId p) (targetId p) (targetType p))
          (votes t) with
  | Some existingVote =>
      if decide (Votes.value existingVote = value p) then
        (List.filter
           (fun v => negb (Votes.id v =? Votes.id existingVote)%nat)
           (votes t),
         votes_seq t)
      else
        (List.map (fun v =>
                     if (Votes.id v =? Votes.id existingVote)%nat then
                       {| Votes.id := Votes.id v;
                          Votes.agent_id := Votes.agent_id v;
                          Votes.target_id := Votes.target_id v;
                          Votes.target_type := Votes.target_type v;
                          Votes.value := value p |}
                     else v) (votes t),
         votes_seq t)
  | None =>
      (votes t ++ [{| Votes.id := votes_seq t;
                      Votes.agent_id := agentId p;
                      Votes.target_id := targetId p;
                      Votes.target_type := targetType p;
                      Votes.value := value p |}],
       S (votes_seq t))
  end.

End VoteService.

(** ** The orderings and the formula of the specification *)

Module Spec.

(** The ordering the specification gives for the listing handed to the tree
    assembly: first the key of the sort mode, then ascending depth. *)
Definition listing_clause (sort : string) : list CommentService.order_term :=
  CommentService.orderBy sort ++ [(CommentService.depth, CommentService.ASC)].

(** The controversy score of the specification, in exact rationals:
    (up + down) * (1 - |up - down| / max(up + down, 1)). *)
Definition controversy (up down : Z) : Q :=
  (inject_Z (up + down) *
   (1 - inject_Z (Z.abs (up - down)) / inject_Z (Z.max (up + down) 1)))%Q.

(** The positions, in input order, of the comments that satisfy [f]. *)
Definition refs_where (f : CommentService.comment -> bool)
    (comments : list CommentService.comment) : list nat :=
  fst <$> List.filter (fun rc => f rc.2) (CommentService.indexed comments).

(** A node with the given parent id is present in the input. *)
Definition present (comments : list CommentService.comment)
    (parent : option string) : bool :=
  match parent with
  | Some p => bool_decide (p ∈ CommentService.id <$> comments)
  | None => false
  end.

End Spec.

(** ** A small store used to run the services *)

Module Sample.

Definition agent (name : string) (karma : Z) : Agents.row :=
  {| Agents.name := name; Agents.display_name := None; Agents.karma := karma |}.

Definition comment_row (author : string) (parent : option string)
    (score depth created_at : Z) : Comments.row :=
  {| Comments.post_id := "p1";
     Comments.author_id := author;
     Comments.parent_id := parent;
     Comments.content := "hello";
     Comments.score := score;
     Comments.upvotes := 0;
     Comments.downvotes := 0;
     Comments.depth := depth;
     Comments.created_at := created_at |}.

(** Agents alice, bob and carol; the post p1 of bob; under it the comment c1
    of bob and its reply c2 by carol, the reply with the higher score. *)
Definition store : tables :=
  {| agents := <["alice" := agent "alice" 0]>
                 (<["bob" := agent "bob" 10]>
                    (<["carol" := agent "carol" 3]> ∅));
     posts := <["p1" := {| Posts.author_id := "bob"; Posts.score := 5 |}]> ∅;
     comments := <["c1" := comment_row "bob" None 0 0 100]>
                   (<["c2" := comment_row "carol" (Some "c1") 7 1 200]> ∅);
     votes := [];
     votes_seq := 0 |}.

(** A listing row with the given tallies. *)
Definition tallied (up down : Z) : CommentService.comment :=
  {| CommentService.id := "c";
     CommentService.content := "hello";
     CommentService.score := up - down;
     CommentService.upvotes := up;
     CommentService.downvotes := down;
     CommentService.parent_id := None;
     CommentService.depth := 0;
     CommentService.created_at := 0;
     CommentService.author_name := "bob";
     CommentService.author_display_name := None |}.

(** A listing row with the given id and parent. *)
Definition flat (id : string) (parent : option string) (depth : Z)
    : CommentService.comment :=
  {| CommentService.id := id;
     CommentService.content := "hello";
     CommentService.score := 0;
     CommentService.upvotes := 0;
     CommentService.downvotes := 0;
     CommentService.parent_id := parent;
     CommentService.depth := depth;
     CommentService.created_at := 0;
     CommentService.author_name := "bob";
     CommentService.author_display_name := None |}.

(** The input of the example of the specification:
    [{id:1,parent:null,depth:0},{id:2,parent:1,depth:1},
     {id:3,parent:1,depth:1},{id:4,parent:2,depth:2}]. *)
Definition thread : list CommentService.comment :=
  [flat "1" None 0; flat "2" (Some "1") 1; flat "3" (Some "1") 1;
   flat "4" (Some "2") 2].

End Sample.

(** ** Authentication utilities ([utils/auth], in [unnamed/part_000]) *)

Module Auth.

(** A [Buffer] is a list of bytes, each an [ascii]. *)
Definition TOKEN_LENGTH : nat := 32.

Definition code (c : Ascii.ascii) : N := Ascii.N_of_ascii c.

(** The digit of a half byte in [toString('hex')]. *)
Definition hex_digit (b0 b1 b2 b3 : bool) : Ascii.ascii :=
  let n := (Nat.b2n b0 + 2 * Nat.b2n b1 + 4 * Nat.b2n b2 + 8 * Nat.b2n b3)%nat in
  default Ascii.zero (String.get n "0123456789abcdef").

(** [buffer.toString('hex')] *)
Fixpoint hex (buffer : list Ascii.ascii) : string :=
  match buffer with
  | [] => ""
  | Ascii.Ascii b0 b1 b2 b3 b4 b5 b6 b7 :: rest =>
      String (hex_digit b4 b5 b6 b7) (String (hex_digit b0 b1 b2 b3) (hex rest))
  end.

(** A character of the class [[0-9a-f]] under the flag [i]. *)
Definition is_hex (c : Ascii.ascii) : bool :=
  ((48 <=? code c) && (code c <=? 57)
   || (97 <=? code c) && (code c <=? 102)
   || (65 <=? code c) && (code c <=? 70))%N.

Fixpoint all_chars (f : Ascii.ascii -> bool) (s : string) : bool :=
  match s with
  | "" => true
  | String c s' => f c && all_chars f s'
  end.

(** [/^[0-9a-f]+$/i.test(body)] *)
Definition hex_string (body : string) : bool :=
  match body with
  | "" => false
  | _ => all_chars is_hex body
  end.

(** [s.slice(n)] for [0 <= n]. *)
Fixpoint slice (n : nat) (s : string) : string :=
  match n, s with
  | O, _ => s
  | S n', String _ s' => slice n' s'
  | S _, "" => ""
  end.

(** [c.toLowerCase()] on the letters A to Z; every other byte is kept. *)
Definition lower (c : Ascii.ascii) : Ascii.ascii :=
  if ((65 <=? code c) && (code c <=? 90))%N
  then Ascii.ascii_of_N (code c + 32) else c.

Fixpoint toLowerCase (s : string) : string :=
  match s with
  | "" => ""
  | String c s' => String (lower c) (toLowerCase s')
  end.

Definition is_space (c : Ascii.ascii) : bool := (code c =? 32)%N.

(** [s.split(' ')] *)
Fixpoint split (s : string) : list string :=
  match s with
  | "" => [""]
  | String c s' =>
      if is_space c then "" :: split s'
      else match split s' with
           | [] => [String c ""]
           | part :: parts => String c part :: parts
           end
  end.

Section WithConfig.

(** [config.moltbook.tokenPrefix] *)
Variable tokenPrefix : string.

(** [generateApiKey()], with the result of [crypto.randomBytes(32)] passed
    as [random]. *)
Definition generateApiKey (random : list Ascii.ascii) : string :=
  String.append tokenPrefix (hex random).

(** [validateApiKey(token)]; a token that is [null] or [undefined] is
    [None]. *)
Definition validateApiKey (token : option string) : bool :=
  match token with
  | None | Some "" => false
  | Some token =>
      if negb (String.prefix tokenPrefix token) then false
      else
        let expectedLength :=
          (String.length tokenPrefix + TOKEN_LENGTH * 2)%nat in
        if negb (String.length token =? expectedLength)%nat then false
        else
          let body := slice (String.length tokenPrefix) token in
          hex_string body
  end.

End WithConfig.

(** [extractToken(authHeader)]; a header that is absent is [None]. *)
Definition extractToken (authHeader : option string) : option string :=
  match authHeader with
  | None | Some "" => None
  | Some authHeader =>
      match split authHeader with
      | [scheme; token] =>
          if negb (String.eqb (toLowerCase scheme) "bearer") then None
          else Some token
      | _ => None
      end
  end.

End Auth.

(** ** Authentication middleware ([middleware/auth], in
    [src/middleware/rateLimit.js]) *)

Module AuthMiddleware.

(** The errors that the middleware hands to [next]: the two classes of
    [utils/errors] it makes, with their message and hint, or whatever a
    call inside the [try] threw. *)
Inductive auth_error :=
| UnauthorizedError (message : string) (hint : option string)
| ForbiddenError (message : string) (hint : option string)
| Thrown (e : error).

(** The row that [AgentService.findByApiKey] resolves a key to;
    [req.agent] carries the same fields under camel-case names. *)
Record agent := {
  id : string;
  name : string;
  display_name : option string;
  description : option string;
  karma : Z;
  status : string;
  is_claimed : bool;
  created_at : Z
}.

(** The fields of [req] that the middleware assigns; [None] is [null] or
    [undefined]. *)
Record request := { req_agent : option agent; req_token : option string }.

(** The double-quote character of the hint about the format of a token. *)
Definition dquote : Ascii.ascii :=
  Ascii.Ascii false true false false false true false false.

Definition format_hint : string :=
  String.append "Token should start with "
    (String dquote
       (String.append "moltbook_"
          (String dquote " followed by 64 hex characters"))).

Section WithCollaborators.

(** [config.moltbook.tokenPrefix] *)
Variable tokenPrefix : string.

(** [AgentService.findByApiKey], whose file is not among the sources. *)
Variable findByApiKey : string -> M (option agent).

(** [requireAuth(req, res, next)]: the request as the middleware leaves it
    and the argument of [next] ([None] for [next()]). *)
Definition requireAuth (authorization : option string) (req : request)
    : world -> request * option auth_error * world := fun w =>
  match Auth.extractToken authorization with
  | None | Some "" =>
      (req, Some (UnauthorizedError "No authorization token provided"
                    (Some "Add 'Authorization: Bearer YOUR_API_KEY' header")),
       w)
  | Some token =>
      if negb (Auth.validateApiKey tokenPrefix (Some token)) then
        (req, Some (UnauthorizedError "Invalid token format"
                      (Some format_hint)), w)
      else
        match findByApiKey token w with
        | (Throw e, w') => (req, Some (Thrown e), w')
        | (Ok None, w') =>
            (req, Some (UnauthorizedError "Invalid or expired token"
                          (Some "Check your API key or register for a new one")),
             w')
        | (Ok (Some agent), w') =>
            ({| req_agent := Some agent; req_token := Some token |}, None, w')
        end
  end.

(** [optionalAuth(req, res, next)] *)
Definition optionalAuth (authorization : option string) (req : request)
    : world -> request * option auth_error * world := fun w =>
  let anonymous := {| req_agent := None; req_token := None |} in
  match Auth.extractToken authorization with
  | None | Some "" => (anonymous, None, w)
  | Some token =>
      if negb (Auth.validateApiKey tokenPrefix (Some token)) then
        (anonymous, None, w)
      else
        match findByApiKey token w with
        | (Throw _, w') => (anonymous, None, w')
        | (Ok None, w') => (anonymous, None, w')
        | (Ok (Some agent), w') =>
            ({| req_agent := Some agent; req_token := Some token |}, None, w')
        end
  end.

End WithCollaborators.

(** [requireClaimed(req, res, next)]: the argument of [next]. *)
Definition requireClaimed (req : request) : option auth_error :=
  match req_agent req with
  | None => Some (UnauthorizedError "Authentication required" None)
  | Some agent =>
      if negb (is_claimed agent) then
        Some (ForbiddenError "Agent not yet claimed"
                (Some "Have your human visit the claim URL and verify via tweet"))
      else None
  end.

End AuthMiddleware.

(** ** Further sample data *)

Module MoreSamples.

(** The length of a string of ASCII characters. *)
Definition sample_length (s : string) : Z := Z.of_nat (String.length s).

(** The store of the sample with a comment c10 of carol at depth 10. *)
Definition sample_deep : tables :=
  {| agents := agents Sample.store;
     posts := posts Sample.store;
     comments := <["c10" := Sample.comment_row "carol" None 0 10 300]>
                   (comments Sample.store);
     votes := [];
     votes_seq := 0 |}.

(** The agent that the sample key resolves to. *)
Definition sample_agent : AuthMiddleware.agent :=
  {| AuthMiddleware.id := "alice";
     AuthMiddleware.name := "alice";
     AuthMiddleware.display_name := None;
     AuthMiddleware.description := None;
     AuthMiddleware.karma := 0;
     AuthMiddleware.status := "active";
     AuthMiddleware.is_claimed := true;
     AuthMiddleware.created_at := 0 |}.

Definition sample_key : string :=
  "moltbook_0123456789abcdef0123456789abcdef0123456789abcdef0123456789abcdef".

End MoreSamples.

(** ** Facts about the rate limiter *)

Section RateLimitFacts.
Import RateLimit.

Implicit Types (st : storage) (lim : limit_config) (key : string).

Lemma filter_all_in_window (ws : Z) (es : list entry) :
  Forall (fun e => ws <= timestamp e) es ->
  List.filter (in_window ws) es = es.
Proof.
  induction 1 as [|e es He _ IH]; simpl; [reflexivity|].
  unfold in_window at 1.
  destruct (Z.leb_spec ws (timestamp e)); [|lia].
  now rewrite IH.
Qed.

(** One check when the whole stored history is still inside the window. *)
Lemma checkLimit_full_history now key lim st :
  let h := default [] (st !! key) in
  Forall (fun e => now - window lim * 1000 <= timestamp e) h ->
  let c := Z.of_nat (length h) in
  let '(d, st') := checkLimit now key lim st in
  allowed d = bool_decide (c < max lim) /\
  remaining d = Z.max 0 (max lim - c - (if allowed d then 1 else 0)) /\
  default [] (st' !! key) =
    (if allowed d then h ++ [{| timestamp := now |}] else h).
Proof.
  intros h Hh c. unfold checkLimit.
  fold h. rewrite (filter_all_in_window _ _ Hh). fold c.
  destruct (List.map timestamp h) as [|t ts]; simpl.
  - split; [|split]; try reflexivity.
    + destruct (Z.ltb_spec c (max lim));
        [rewrite bool_decide_eq_true_2 | rewrite bool_decide_eq_false_2];
        auto; lia.
    + destruct (c <? max lim); [|reflexivity].
      now rewrite lookup_insert_eq.
  - split; [|split]; try reflexivity.
    + destruct (Z.ltb_spec c (max lim));
        [rewrite bool_decide_eq_true_2 | rewrite bool_decide_eq_false_2];
        auto; lia.
    + destruct (c <? max lim); [|reflexivity].
      now rewrite lookup_insert_eq.
Qed.

Lemma run_checks_length key lim nows st :
  length (run_checks key lim nows st).1 = length nows.
Proof.
  revert st. induction nows as [|now nows IH]; intros st; simpl; [reflexivity|].
  destruct (checkLimit now key lim st) as [d st1].
  specialize (IH st1).
  destruct (run_checks key lim nows st1) as [ds st2]; simpl in *.
  now rewrite IH.
Qed.

Lemma within_one_window_tail lim now nows :
  within_one_window lim (now :: nows) -> within_one_window lim nows.
Proof.
  intros H i j ti tj Hij Hi Hj.
  apply (H (S i) (S j) ti tj); [lia|exact Hi|exact Hj].
Qed.

Lemma within_one_window_head lim now nows :
  within_one_window lim (now :: nows) ->
  Forall (fun t => t - window lim * 1000 <= now) nows.
Proof.
  intros H. apply Forall_lookup_2. intros j tj Hj.
  apply (H 0%nat (S j) now tj); [lia|reflexivity|exact Hj].
Qed.

(** The run of checks from a history of [length h] events that all stay in
    the window: the check number [i] sees [length h + i] events, up to the
    ceiling. *)
Lemma run_checks_counts key lim nows : forall st,
  let h := default [] (st !! key) in
  Z.of_nat (length h) <= max lim ->
  Forall (fun e =>
    Forall (fun t => t - window lim * 1000 <= timestamp e) nows) h ->
  within_one_window lim nows ->
  forall (i : nat) (d : decision),
    (run_checks key lim nows st).1 !! i = Some d ->
    allowed d = bool_decide (Z.of_nat (length h) + Z.of_nat i < max lim) /\
    remaining d =
      Z.max 0 (max lim - (Z.of_nat (length h) + Z.of_nat i) - 1).
Proof.
  induction nows as [|now nows IH]; intros st h Hlen Hh Hw i d; simpl.
  { rewrite lookup_nil. discriminate. }
  pose proof (checkLimit_full_history now key lim st) as Hstep.
  fold h in Hstep. simpl in Hstep.
  assert (Hnow : Forall (fun e => now - window lim * 1000 <= timestamp e) h).
  { eapply Forall_impl; [exact Hh|]. intros e He. now inversion He. }
  specialize (Hstep Hnow).
  destruct (checkLimit now key lim st) as [d0 st1].
  destruct Hstep as (Hall & Hrem & Hst1).
  specialize (IH st1). simpl in IH. rewrite Hst1 in IH.
  destruct (run_checks key lim nows st1) as [ds st2]; simpl in *.
  destruct i as [|i]; simpl.
  - intros [= <-]. rewrite Hall, Hrem, Hall.
    split; [apply bool_decide_ext; lia|].
    case_bool_decide; lia.
  - intros Hd.
    assert (Hh1 : Forall (fun e =>
              Forall (fun t => t - window lim * 1000 <= timestamp e) nows) h).
    { eapply Forall_impl; [exact Hh|]. intros e He. now inversion He. }
    pose proof (within_one_window_head _ _ _ Hw) as Hhead.
    pose proof (within_one_window_tail _ _ _ Hw) as Htail.
    rewrite Hall in IH. case_bool_decide as Hc.
    + destruct (IH) with (i := i) (d := d) as [Ha Hr]; auto.
      * rewrite length_app; simpl; lia.
      * apply Forall_app; split; [exact Hh1|]. constructor; [exact Hhead|constructor].
      * rewrite length_app in Ha, Hr; simpl in Ha, Hr.
        rewrite Ha, Hr. split.
        -- apply bool_decide_ext. lia.
        -- f_equal. lia.
    + destruct (IH) with (i := i) (d := d) as [Ha Hr]; auto.
      rewrite Ha, Hr. split.
      * rewrite !bool_decide_eq_false_2; [reflexivity|lia|lia].
      * lia.
Qed.

(** C3. From an empty history for the key and a limit with [max >= 1],
    [max + 1] checks made within one window give: every one of the first
    [max] checks allowed, the check number [i] (from 0) reporting
    [remaining = max - 1 - i], so from [max - 1] down to [0] in steps of
    one, and the check number [max + 1] denied. *)
Theorem checkLimit_admits_exactly_max key lim st nows :
  1 <= max lim ->
  default [] (st !! key) = [] ->
  length nows = S (Z.to_nat (max lim)) ->
  within_one_window lim nows ->
  let ds := (run_checks key lim nows st).1 in
  length ds = length nows /\
  (forall i : nat, (i < Z.to_nat (max lim))%nat ->
     exists d, ds !! i = Some d /\ allowed d = true /\
               remaining d = max lim - 1 - Z.of_nat i) /\
  (exists d, ds !! Z.to_nat (max lim) = Some d /\ allowed d = false /\
             remaining d = 0).
Proof.
  intros Hmax Hempty Hlen Hw ds.
  assert (Hds : length ds = length nows) by apply run_checks_length.
  pose proof (run_checks_counts key lim nows st) as Hc.
  simpl in Hc. rewrite Hempty in Hc. simpl in Hc.
  specialize (Hc ltac:(lia) ltac:(constructor) Hw).
  split; [exact Hds|]. split.
  - intros i Hi.
    destruct (lookup_lt_is_Some_2 ds i) as [d Hd]; [lia|].
    exists d. destruct (Hc i d Hd) as [Ha Hr].
    split; [exact Hd|]. split.
    + rewrite Ha. apply bool_decide_eq_true_2. lia.
    + rewrite Hr. lia.
  - destruct (lookup_lt_is_Some_2 ds (Z.to_nat (max lim))) as [d Hd]; [lia|].
    exists d. destruct (Hc _ d Hd) as [Ha Hr].
    split; [exact Hd|]. split.
    + rewrite Ha. apply bool_decide_eq_false_2. lia.
    + rewrite Hr. lia.
Qed.

(** C4. A denied check leaves the whole storage, and so the history of
    its key, as it was: any later check sees what it would have seen had
    the denied check not been made. *)
Theorem checkLimit_denied_consumes_nothing now key lim st :
  allowed (checkLimit now key lim st).1 = false ->
  (checkLimit now key lim st).2 = st /\
  (checkLimit now key lim st).2 !! key = st !! key /\
  forall now' lim',
    checkLimit now' key lim' (checkLimit now key lim st).2 =
    checkLimit now' key lim' st.
Proof.
  intros Hdenied.
  assert (Hst : (checkLimit now key lim st).2 = st).
  { revert Hdenied. unfold checkLimit.
    destruct (List.map timestamp _); simpl; intros ->; reflexivity. }
  rewrite Hst. auto.
Qed.

(** The run of the specification: 2 per minute, checks at 0 s, 1 s and 2 s
    are allowed, allowed and denied, the third with [retryAfter = 58]. *)
Example checkLimit_two_per_minute :
  List.map (fun d => (allowed d, remaining d, retryAfter d))
    (run_checks "rl:requests:alice" {| max := 2; window := 60 |}
       [0; 1000; 2000] ∅).1
  = [(true, 1, 0); (true, 0, 0); (false, 0, 58)].
Proof. reflexivity. Qed.

End RateLimitFacts.

(** ** Facts about the monad and the database client *)

Section ClientFacts.

Lemma bind_Ok {A B} (m : M A) (k : A -> M B) w a w' :
  m w = (Ok a, w') -> bind m k w = k a w'.
Proof. intros H. unfold bind. now rewrite H. Qed.

Lemma query_available {R} (stmt : Database.statement R) t rows t' :
  stmt t = Some (rows, t') ->
  Database.query stmt (available t) = (Ok rows, available t').
Proof. intros H. unfold Database.query, available; simpl. now rewrite H. Qed.

Lemma queryOne_available {R} (stmt : Database.statement R) t rows t' :
  stmt t = Some (rows, t') ->
  Database.queryOne stmt (available t) = (Ok (head rows), available t').
Proof.
  intros H. unfold Database.queryOne.
  now rewrite (bind_Ok _ _ _ _ _ (query_available _ _ _ _ H)).
Qed.

(** What [transaction] gives to the callers that use it: a throw inside
    the callback leaves the tables as they were before it. *)
Lemma transaction_rolls_back {A} (callback : M A) w e w' :
  Database.transaction callback w = (Throw e, w') -> db w' = db w.
Proof.
  unfold Database.transaction.
  destruct (callback w) as [[a|e'] w1]; [discriminate|].
  now intros [= _ <-].
Qed.

Lemma bind_Throw_run {A B} (m : M A) (k : A -> M B) w e w' :
  m w = (Throw e, w') -> bind m k w = (Throw e, w').
Proof. intros H. unfold bind. now rewrite H. Qed.

End ClientFacts.

(** ** Facts about lists of rows *)

Section RowFacts.
Context {A : Type}.
Implicit Types (f g : A -> bool) (l : list A).

Lemma head_filter_find f l : head (List.filter f l) = List.find f l.
Proof.
  induction l as [|x l IH]; simpl; [reflexivity|].
  destruct (f x); simpl; auto.
Qed.

Lemma find_None_existsb f l : List.find f l = None -> existsb f l = false.
Proof.
  induction l as [|x l IH]; simpl; [reflexivity|].
  destruct (f x); simpl; [discriminate|auto].
Qed.

Lemma find_None_filter f l : List.find f l = None -> List.filter f l = [].
Proof.
  induction l as [|x l IH]; simpl; [reflexivity|].
  destruct (f x); simpl; [discriminate|auto].
Qed.

Lemma find_snoc_None f l x :
  List.find f l = None ->
  List.find f (l ++ [x]) = if f x then Some x else None.
Proof.
  induction l as [|y l IH]; simpl; [reflexivity|].
  destruct (f y); [discriminate|auto].
Qed.

Lemma find_filter_None f g l :
  (forall x, In x l -> f x = true -> g x = false) ->
  List.find f (List.filter g l) = None.
Proof.
  induction l as [|x l IH]; simpl; intros H; [reflexivity|].
  destruct (g x) eqn:Hg; simpl.
  - destruct (f x) eqn:Hf.
    + rewrite (H x) in Hg by auto. discriminate.
    + apply IH. intros y Hy. apply H. now right.
  - apply IH. intros y Hy. apply H. now right.
Qed.

Lemma find_map f (h : A -> A) l :
  (forall x, f (h x) = f x) ->
  List.find f (List.map h l) = h <$> List.find f l.
Proof.
  intros Hf. induction l as [|x l IH]; simpl; [reflexivity|].
  rewrite Hf. destruct (f x); simpl; auto.
Qed.

Lemma find_In f l x : List.find f l = Some x -> In x l /\ f x = true.
Proof. apply List.find_some. Qed.

Lemma NoDup_fmap_filter {B} (h : A -> B) g l :
  NoDup (h <$> l) -> NoDup (h <$> List.filter g l).
Proof.
  induction l as [|x l IH]; simpl; intros H; [constructor|].
  apply NoDup_cons in H as [Hx Hnd].
  destruct (g x); simpl; auto.
  apply NoDup_cons. split; auto.
  intros Hin. apply Hx.
  apply list_elem_of_fmap in Hin as (y & -> & Hy).
  apply list_elem_of_fmap. exists y. split; [reflexivity|].
  apply list_elem_of_In in Hy. apply filter_In in Hy as [Hy _].
  now apply list_elem_of_In.
Qed.

End RowFacts.

(** ** Facts about the vote ledger *)

Section VoteFacts.
Import VoteService.

Implicit Types (t : tables) (v : Votes.row).

Lemma key_unique (vs : list Votes.row) x y :
  NoDup (Votes.key <$> vs) -> In x vs -> In y vs ->
  Votes.key x = Votes.key y -> x = y.
Proof.
  induction vs as [|z vs IH]; simpl; [tauto|].
  rewrite NoDup_cons. intros [Hz Hnd] [->|Hx] [->|Hy] Hk; auto.
  - exfalso. apply Hz. rewrite Hk. apply list_elem_of_fmap.
    exists y. split; [reflexivity|]. now apply list_elem_of_In.
  - exfalso. apply Hz. rewrite <- Hk. apply list_elem_of_fmap.
    exists x. split; [reflexivity|]. now apply list_elem_of_In.
Qed.

Lemma is_vote_of_key a i ty v :
  is_vote_of a i ty v = true <-> Votes.key v = (a, i, ty).
Proof. unfold is_vote_of. apply bool_decide_eq_true. Qed.

Lemma getTarget_available t i ty a :
  target_author t i ty = Some a ->
  getTarget i ty (available t) =
    (Ok {| id := i; author_id := a |}, available t).
Proof.
  unfold target_author, getTarget. intros H.
  destruct (decide (ty = "post")) as [Hp|Hp].
  - destruct (posts t !! i) as [p|] eqn:Hl; [|discriminate].
    injection H as <-.
    erewrite bind_Ok
      by (apply queryOne_available; unfold select_post; now rewrite Hl).
    reflexivity.
  - destruct (decide (ty = "comment")) as [Hc|Hc]; [|discriminate].
    destruct (comments t !! i) as [c|] eqn:Hl; [|discriminate].
    injection H as <-.
    erewrite bind_Ok
      by (apply queryOne_available; unfold select_comment; now rewrite Hl).
    reflexivity.
Qed.

Lemma PostService_updateScore_available t i delta :
  PostService.updateScore i delta (available t) =
    (Ok tt, available
       {| agents := agents t;
          posts := alter (fun p => {| Posts.author_id := Posts.author_id p;
                                      Posts.score := Posts.score p + delta |})
                         i (posts t);
          comments := comments t;
          votes := votes t;
          votes_seq := votes_seq t |}).
Proof. reflexivity. Qed.

Lemma CommentService_updateScore_available t i delta up :
  exists f,
    (forall c, Comments.author_id (f c) = Comments.author_id c /\
               Comments.score (f c) = Comments.score c + delta) /\
    (CommentService.updateScore i delta up ;;; ret tt) (available t) =
      (Ok tt, available
         {| agents := agents t;
            posts := posts t;
            comments := alter f i (comments t);
            votes := votes t;
            votes_seq := votes_seq t |}).
Proof.
  unfold CommentService.updateScore, CommentService.update_score.
  eexists. split; [|reflexivity]. intros c. simpl. auto.
Qed.

Lemma updateKarma_available t a delta :
  AgentService.updateKarma a delta (available t) =
    (Ok tt, available
       {| agents := alter (fun r => {| Agents.name := Agents.name r;
                                       Agents.display_name := Agents.display_name r;
                                       Agents.karma := Agents.karma r + delta |})
                          a (agents t);
          posts := posts t;
          comments := comments t;
          votes := votes t;
          votes_seq := votes_seq t |}).
Proof. reflexivity. Qed.

Lemma findById_available t a :
  AgentService.findById a (available t) = (Ok (agents t !! a), available t).
Proof.
  unfold AgentService.findById.
  erewrite queryOne_available by reflexivity.
  now destruct (agents t !! a).
Qed.

(** The second half of [vote]: once the vote row is written, the score of
    the target and the karma of its author move by the deltas. *)
Lemma propagate_available t i ty a (k s : Z) (scoreDelta karmaDelta : Z)
    (up : bool) {B} (rest : option Agents.row -> M B) :
  target_author t i ty = Some a ->
  karma_of t a = Some k ->
  target_score t i ty = Some s ->
  exists t',
    ((if decide (ty = "post") then PostService.updateScore i scoreDelta
      else CommentService.updateScore i scoreDelta up ;;; ret tt) ;;;
     AgentService.updateKarma a karmaDelta ;;;
     author <- AgentService.findById a ;; rest author) (available t) =
      rest (agents t' !! a) (available t') /\
    votes t' = votes t /\
    target_author t' i ty = Some a /\
    karma_of t' a = Some (k + karmaDelta) /\
    target_score t' i ty = Some (s + scoreDelta).
Proof.
  unfold target_author, karma_of, target_score.
  intros Ha Hk Hs.
  destruct (agents t !! a) as [r|] eqn:Hr; [|discriminate].
  injection Hk as Hk.
  destruct (decide (ty = "post")) as [Hp|Hp].
  - destruct (posts t !! i) as [p|] eqn:Hl; [|discriminate].
    injection Ha as Ha. injection Hs as Hs.
    eexists. split.
    + erewrite bind_Ok by apply PostService_updateScore_available.
      erewrite bind_Ok by apply updateKarma_available.
      erewrite bind_Ok by apply findById_available.
      reflexivity.
    + simpl. rewrite !lookup_alter_eq, Hl, Hr. simpl.
      subst. auto.
  - destruct (decide (ty = "comment")) as [Hc|Hc]; [|discriminate].
    destruct (comments t !! i) as [c|] eqn:Hl; [|discriminate].
    injection Ha as Ha. injection Hs as Hs.
    destruct (CommentService_updateScore_available t i scoreDelta up)
      as (f & Hf & Hrun).
    eexists. split.
    + erewrite bind_Ok by apply Hrun.
      erewrite bind_Ok by apply updateKarma_available.
      erewrite bind_Ok by apply findById_available.
      reflexivity.
    + simpl. rewrite !lookup_alter_eq, Hl, Hr. simpl.
      destruct (Hf c) as [-> ->]. subst. auto.
Qed.

(** The first half of [vote]: the statement chosen from the stored vote,
    and what the ledger holds for the triple once it has run. *)
Lemma write_vote_available t ag i ty (value : Z) :
  NoDup (Votes.key <$> votes t) ->
  exists t1 act delta,
    (match List.find (is_vote_of ag i ty) (votes t) with
     | Some existingVote =>
         if decide (Votes.value existingVote = value) then
           queryOne (delete_vote (Votes.id existingVote)) ;;;
           ret ("removed", - value, - value)
         else
           queryOne (update_vote (Votes.id existingVote) value) ;;;
           ret ("changed", value * 2, value * 2)
     | None =>
         queryOne (insert_vote ag i ty value) ;;;
         ret (if decide (value = VOTE_UP) then "upvoted" else "downvoted",
              value, value)
     end) (available t) = (Ok (act, delta, delta), available t1) /\
    (stored_vote t1 ag i ty, act, delta) =
      match stored_vote t ag i ty with
      | Some current =>
          if decide (current = value) then (None, "removed", - value)
          else (Some value, "changed", value * 2)
      | None =>
          (Some value,
           if decide (value = 1) then "upvoted" else "downvoted", value)
      end /\
    agents t1 = agents t /\ posts t1 = posts t /\ comments t1 = comments t /\
    NoDup (Votes.key <$> votes t1).
Proof.
  intros Hnd. unfold stored_vote.
  destruct (List.find (is_vote_of ag i ty) (votes t)) as [e|] eqn:Hfind; simpl.
  - destruct (find_In _ _ _ Hfind) as [Hin He].
    destruct (decide (Votes.value e = value)) as [Hv|Hv].
    + eexists _, _, _. split.
      { erewrite bind_Ok by (apply queryOne_available; reflexivity).
        reflexivity. }
      simpl. split; [|split; [|split; [|split]]]; try reflexivity.
      * rewrite find_filter_None; [reflexivity|].
        intros x Hx Hfx. apply negb_false_iff, Nat.eqb_eq. f_equal.
        apply (key_unique (votes t)); auto.
        apply is_vote_of_key in Hfx, He. congruence.
      * now apply NoDup_fmap_filter.
    + eexists _, _, _. split.
      { erewrite bind_Ok by (apply queryOne_available; reflexivity).
        reflexivity. }
      simpl. split; [|split; [|split; [|split]]]; try reflexivity.
      * rewrite find_map.
        -- rewrite Hfind. simpl. now rewrite Nat.eqb_refl.
        -- intros x. unfold is_vote_of, Votes.key.
           now destruct (Votes.id x =? Votes.id e)%nat.
      * rewrite <- list_fmap_compose.
        erewrite list_fmap_ext; [exact Hnd|].
        intros _ x _. simpl. unfold Votes.key.
        now destruct (Votes.id x =? Votes.id e)%nat.
  - eexists _, _, _. split.
    { erewrite bind_Ok.
      2:{ apply queryOne_available. unfold insert_vote.
          rewrite (find_None_existsb _ _ Hfind). reflexivity. }
      reflexivity. }
    simpl. split; [|split; [|split; [|split]]]; try reflexivity.
    + rewrite (find_snoc_None _ _ _ Hfind).
      unfold is_vote_of, Votes.key; simpl.
      now rewrite bool_decide_eq_true_2.
    + rewrite fmap_app. apply NoDup_app. split; [exact Hnd|]. split.
      * intros k Hk. simpl. intros Hk'. apply list_elem_of_singleton in Hk'.
        subst k. apply list_elem_of_fmap in Hk as (x & Hx1 & Hx2).
        apply list_elem_of_In in Hx2.
        assert (Hf : is_vote_of ag i ty x = true)
          by (apply is_vote_of_key; now rewrite <- Hx1).
        pose proof (find_None_filter _ _ Hfind) as Hnil.
        assert (Hin : In x (List.filter (is_vote_of ag i ty) (votes t)))
          by (apply filter_In; auto).
        rewrite Hnil in Hin. destruct Hin.
      * simpl. apply NoDup_singleton.
Qed.

(** One call of [vote] by an agent other than the author, on a store that
    satisfies the uniqueness constraint of the ledger. *)
Lemma vote_available t (p : params) a (k s : Z) :
  target_author t (targetId p) (targetType p) = Some a ->
  a <> agentId p ->
  karma_of t a = Some k ->
  target_score t (targetId p) (targetType p) = Some s ->
  NoDup (Votes.key <$> votes t) ->
  exists r t' next delta,
    vote p (available t) = (Ok r, available t') /\
    (next, action r, delta) =
      match stored_vote t (agentId p) (targetId p) (targetType p) with
      | Some current =>
          if decide (current = value p) then (None, "removed", - value p)
          else (Some (value p), "changed", value p * 2)
      | None =>
          (Some (value p),
           if decide (value p = 1) then "upvoted" else "downvoted", value p)
      end /\
    stored_vote t' (agentId p) (targetId p) (targetType p) = next /\
    target_score t' (targetId p) (targetType p) = Some (s + delta) /\
    karma_of t' a = Some (k + delta) /\
    target_author t' (targetId p) (targetType p) = Some a /\
    NoDup (Votes.key <$> votes t').
Proof.
  destruct p as [i ty ag value]. simpl.
  intros Ha Hne Hk Hs Hnd.
  destruct (write_vote_available t ag i ty value Hnd)
    as (t1 & act & delta & Hrun1 & Hout & Hag & Hpo & Hco & Hnd1).
  assert (Ha1 : target_author t1 i ty = Some a)
    by (unfold target_author in *; now rewrite Hpo, Hco).
  assert (Hk1 : karma_of t1 a = Some k)
    by (unfold karma_of in *; now rewrite Hag).
  assert (Hs1 : target_score t1 i ty = Some s)
    by (unfold target_score in *; now rewrite Hpo, Hco).
  set (rest := fun author : option Agents.row =>
    ret {| success := true;
           message := if decide (act = "upvoted") then "Upvoted!"
                      else if decide (act = "downvoted") then "Downvoted!"
                      else if decide (act = "removed") then "Vote removed!"
                      else "Vote changed!";
           action := act;
           author := Agents.name <$> author |}).
  destruct (propagate_available t1 i ty a k s delta delta
              (bool_decide (value = VOTE_UP)) rest Ha1 Hk1 Hs1)
    as (t' & Hrun2 & Hvotes & Ha' & Hk' & Hs').
  eexists _, t', (stored_vote t1 ag i ty), delta.
  split; [|split; [|split; [|split; [|split; [|split]]]]]; auto.
  - unfold vote.
    erewrite bind_Ok by (apply getTarget_available; exact Ha).
    simpl. destruct (decide (a = ag)) as [Heq|_]; [contradiction|].
    erewrite bind_Ok by (apply queryOne_available; reflexivity).
    rewrite head_filter_find.
    erewrite bind_Ok by exact Hrun1.
    cbv beta iota. refine (eq_trans Hrun2 _). reflexivity.
  - simpl. exact Hout.
  - unfold stored_vote. now rewrite Hvotes.
  - now rewrite Hvotes.
Qed.

Lemma stored_rows_le_1 t ag i ty :
  NoDup (Votes.key <$> votes t) -> (stored_rows t ag i ty <= 1)%nat.
Proof.
  unfold stored_rows. generalize (votes t) as vs.
  induction vs as [|x vs IH]; simpl; intros Hnd; [lia|].
  apply NoDup_cons in Hnd as [Hx Hnd].
  destruct (is_vote_of ag i ty x) eqn:Hfx; simpl; [|auto].
  enough (List.filter (is_vote_of ag i ty) vs = []) as -> by (simpl; lia).
  apply find_None_filter.
  destruct (List.find (is_vote_of ag i ty) vs) as [y|] eqn:Hfind; [|reflexivity].
  exfalso. apply Hx. destruct (find_In _ _ _ Hfind) as [Hin Hfy].
  apply is_vote_of_key in Hfx, Hfy.
  apply list_elem_of_fmap. exists y. split; [congruence|].
  now apply list_elem_of_In.
Qed.

(** C1. A call of [vote] on an existing target by an agent other than its
    author follows the six rows of the transition table: for the stored
    value (or none) and the requested value the table gives the value stored
    afterwards, the action and the delta, and the call answers with that
    action, leaves that value stored, and moves the score of the target and
    the karma of its author by that delta (so by 2 or -2 on a flip).  The
    ledger never holds two rows for the triple.  From no stored vote, asking
    for the same direction a second time answers "removed", leaves no stored
    vote and puts score and karma back to where they were.  The store is
    taken with the constraints of the schema: one vote row per triple, and
    the author of the target is a row of [agents]. *)
Theorem vote_follows_transition_table t (p : params) a (k s : Z)
    (next : option Z) (act : string) (delta : Z) :
  target_author t (targetId p) (targetType p) = Some a ->
  a <> agentId p ->
  karma_of t a = Some k ->
  target_score t (targetId p) (targetType p) = Some s ->
  NoDup (Votes.key <$> votes t) ->
  spec_transition
    (stored_vote t (agentId p) (targetId p) (targetType p)) (value p)
    = Some (next, act, delta) ->
  exists r t',
    vote p (available t) = (Ok r, available t') /\
    action r = act /\
    stored_vote t' (agentId p) (targetId p) (targetType p) = next /\
    target_score t' (targetId p) (targetType p) = Some (s + delta) /\
    karma_of t' a = Some (k + delta) /\
    (stored_rows t' (agentId p) (targetId p) (targetType p) <= 1)%nat /\
    NoDup (Votes.key <$> votes t') /\
    (stored_vote t (agentId p) (targetId p) (targetType p) = None ->
     exists r2 t'',
       vote p (available t') = (Ok r2, available t'') /\
       action r2 = "removed" /\
       stored_vote t'' (agentId p) (targetId p) (targetType p) = None /\
       (stored_rows t'' (agentId p) (targetId p) (targetType p) = 0)%nat /\
       target_score t'' (targetId p) (targetType p) = Some s /\
       karma_of t'' a = Some k).
Proof.
  intros Ha Hne Hk Hs Hnd Hspec.
  destruct (vote_available t p a k s Ha Hne Hk Hs Hnd)
    as (r & t' & next' & delta' & Hrun & Hout & Hnext & Hs' & Hk' & Ha' & Hnd').
  assert (Hsame : (next', action r, delta') = (next, act, delta)).
  { rewrite Hout. revert Hspec.
    destruct (stored_vote t (agentId p) (targetId p) (targetType p))
      as [[|[c|c|]|[c|c|]]|];
      destruct (value p) as [|[q|q|]|[q|q|]]; simpl;
      try discriminate; now intros [= <- <- <-]. }
  injection Hsame as -> Hact ->.
  exists r, t'. repeat (split; [assumption || now apply stored_rows_le_1|]).
  intros Hnone.
  destruct (vote_available t' p a (k + delta) (s + delta) Ha' Hne Hk' Hs' Hnd')
    as (r2 & t'' & next2 & delta2 & Hrun2 & Hout2 & Hnext2 & Hs2 & Hk2 & _ & Hnd2).
  rewrite Hnone in Hspec, Hout.
  injection Hout as -> _ ->.
  rewrite Hnext in Hout2.
  destruct (decide (value p = value p)) as [_|Hx]; [|contradiction].
  injection Hout2 as -> Hact2 ->.
  exists r2, t''. split; [exact Hrun2|]. split; [exact Hact2|].
  split; [exact Hnext2|]. split.
  - pose proof (stored_rows_le_1 t'' (agentId p) (targetId p) (targetType p) Hnd2).
    unfold stored_rows, stored_vote in *.
    destruct (List.find _ (votes t'')) eqn:Hf; [discriminate|].
    now rewrite (find_None_filter _ _ Hf).
  - split.
    + rewrite Hs2. f_equal. lia.
    + rewrite Hk2. f_equal. lia.
Qed.

(** The six rows of the table, each reached on the sample store: the
    action, the value left stored, the score of p1 and the karma of bob
    after the last call. *)
Example vote_six_transitions_on_sample :
  let run (first : option Z) (second : Z) :=
    let w := match first with
             | Some v => (vote (Build_params "p1" "post" "alice" v)
                            (available Sample.store)).2
             | None => available Sample.store
             end in
    let '(r, w') := vote (Build_params "p1" "post" "alice" second) w in
    (match r with Ok r => action r | Throw _ => "thrown" end,
     stored_vote (db w') "alice" "p1" "post",
     target_score (db w') "p1" "post",
     karma_of (db w') "bob") in
  run None 1 = ("upvoted", Some 1, Some 6, Some 11) /\
  run None (-1) = ("downvoted", Some (-1), Some 4, Some 9) /\
  run (Some 1) 1 = ("removed", None, Some 5, Some 10) /\
  run (Some (-1)) (-1) = ("removed", None, Some 5, Some 10) /\
  run (Some 1) (-1) = ("changed", Some (-1), Some 4, Some 9) /\
  run (Some (-1)) 1 = ("changed", Some 1, Some 6, Some 11).
Proof. vm_compute. repeat split; reflexivity. Qed.

(** C10. When the author of the target is the voting agent, and the
    database answers the lookup of the target, [vote] throws the bad-request
    error and no table has changed: no vote row is created, updated or
    deleted, and no score or karma moves. *)
Theorem vote_on_own_content_rejected (w : world) (p : params) :
  target_author (db w) (targetId p) (targetType p) = Some (agentId p) ->
  queries_left w <> Some 0%nat ->
  exists w',
    vote p w = (Throw (BadRequestError "Cannot vote on your own content"), w') /\
    db w' = db w.
Proof.
  destruct p as [i ty ag value]; simpl. intros Ha Hq.
  unfold vote, getTarget, target_author in *.
  destruct (decide (ty = "post")) as [Hp|Hp].
  - destruct (posts (db w) !! i) as [post|] eqn:Hl; [|discriminate].
    injection Ha as Ha.
    unfold bind, queryOne, Database.binding, Database.queryOne,
      Database.query, bind, select_post; simpl.
    rewrite Hl; simpl.
    destruct (queries_left w) as [[|n]|]; [contradiction| |]; simpl;
      (destruct (decide (Posts.author_id post = ag)); [|contradiction]);
      eexists; split; reflexivity.
  - destruct (decide (ty = "comment")) as [Hc|Hc]; [|discriminate].
    destruct (comments (db w) !! i) as [c|] eqn:Hl; [|discriminate].
    injection Ha as Ha.
    unfold bind, queryOne, Database.binding, Database.queryOne,
      Database.query, bind, select_comment; simpl.
    rewrite Hl; simpl.
    destruct (queries_left w) as [[|n]|]; [contradiction| |]; simpl;
      (destruct (decide (Comments.author_id c = ag)); [|contradiction]);
      eexists; split; reflexivity.
Qed.

(** C2, on the code.  The connection is lost after the third statement of
    an upvote of comment c1 by alice: the lookup of the target, the lookup
    of the stored vote and the [INSERT] have each been committed, and the
    update of the score is rejected.  The call throws, and the store keeps
    the vote row while the score of c1 and the karma of its author bob are
    what they were.  One statement later the score has moved and the karma
    has not. *)
Theorem vote_leaves_row_without_counters :
  let p := Build_params "c1" "comment" "alice" VOTE_UP in
  let w3 := {| db := Sample.store; queries_left := Some 3%nat |} in
  let w4 := {| db := Sample.store; queries_left := Some 4%nat |} in
  stored_vote Sample.store "alice" "c1" "comment" = None /\
  target_score Sample.store "c1" "comment" = Some 0 /\
  karma_of Sample.store "bob" = Some 10 /\
  (vote p w3).1 = Throw (DatabaseError "connection terminated") /\
  stored_vote (db (vote p w3).2) "alice" "c1" "comment" = Some 1 /\
  target_score (db (vote p w3).2) "c1" "comment" = Some 0 /\
  karma_of (db (vote p w3).2) "bob" = Some 10 /\
  (vote p w4).1 = Throw (DatabaseError "connection terminated") /\
  stored_vote (db (vote p w4).2) "alice" "c1" "comment" = Some 1 /\
  target_score (db (vote p w4).2) "c1" "comment" = Some 1 /\
  karma_of (db (vote p w4).2) "bob" = Some 10.
Proof. vm_compute. repeat split; reflexivity. Qed.

(** C5, on the code.  Alice downvotes the comment c1, which has no votes:
    the ledger then holds one vote of value -1 on c1 and none of value 1,
    and the [downvotes] tally of c1 is -1.  When she first upvotes and then
    downvotes, the ledger holds one vote of value -1, the [upvotes] tally
    is still 1 and the [downvotes] tally is -1. *)
Theorem comment_tallies_diverge_from_votes :
  let down := (downvoteComment "c1" "alice" (available Sample.store)).2 in
  let flip := (downvoteComment "c1" "alice"
                 (upvoteComment "c1" "alice" (available Sample.store)).2).2 in
  count_votes (db down) "c1" (-1) = 1 /\
  count_votes (db down) "c1" 1 = 0 /\
  Comments.downvotes <$> comments (db down) !! "c1" = Some (-1) /\
  Comments.upvotes <$> comments (db down) !! "c1" = Some 0 /\
  count_votes (db flip) "c1" (-1) = 1 /\
  count_votes (db flip) "c1" 1 = 0 /\
  Comments.downvotes <$> comments (db flip) !! "c1" = Some (-1) /\
  Comments.upvotes <$> comments (db flip) !! "c1" = Some 1.
Proof. vm_compute. repeat split; reflexivity. Qed.

(** [queryAll] is not among the names that the ledger takes from the
    database module, so a batch read that reaches either query throws. *)
Lemma getVotes_unbound_queryAll ag (targets : list target_ref) (w : world) :
  Exists (fun r => ref_targetType r = "post" \/ ref_targetType r = "comment")
    targets ->
  getVotes ag targets w =
    (Throw (ReferenceError "queryAll is not defined"), w).
Proof.
  intros Hex. unfold getVotes.
  destruct (decide (length targets = 0%nat)) as [Hz|_].
  { destruct targets; [inversion Hex|discriminate]. }
  set (postIds := List.map _ (List.filter
         (fun r => bool_decide (ref_targetType r = "post")) targets)).
  set (commentIds := List.map _ (List.filter
         (fun r => bool_decide (ref_targetType r = "comment")) targets)).
  destruct (decide (0 < length postIds)%nat) as [Hp|Hp]; [reflexivity|].
  destruct (decide (0 < length commentIds)%nat) as [Hc|Hc]; [reflexivity|].
  exfalso.
  assert (Hp0 : List.filter
            (fun r => bool_decide (ref_targetType r = "post")) targets = []).
  { subst postIds. rewrite length_map in Hp.
    apply length_zero_iff_nil. lia. }
  assert (Hc0 : List.filter
            (fun r => bool_decide (ref_targetType r = "comment")) targets = []).
  { subst commentIds. rewrite length_map in Hc.
    apply length_zero_iff_nil. lia. }
  apply List.Exists_exists in Hex as (r & Hin & [Hr|Hr]).
  - assert (Hin' : In r []) by
      (rewrite <- Hp0; apply filter_In; split;
       [exact Hin|now apply bool_decide_eq_true_2]).
    destruct Hin'.
  - assert (Hin' : In r []) by
      (rewrite <- Hc0; apply filter_In; split;
       [exact Hin|now apply bool_decide_eq_true_2]).
    destruct Hin'.
Qed.

(** C6, on the code.  Alice has upvoted the post p1; the batch read of her
    vote on p1 throws a [ReferenceError] instead of returning the map that
    sends p1 to 1.  The empty list of targets does return the empty map. *)
Theorem getVotes_throws_on_a_post_target :
  let w := (upvotePost "p1" "alice" (available Sample.store)).2 in
  stored_vote (db w) "alice" "p1" "post" = Some 1 /\
  getVotes "alice" [Build_target_ref "p1" "post"] w =
    (Throw (ReferenceError "queryAll is not defined"), w) /\
  getVotes "alice" [] w = (Ok ∅, w).
Proof.
  intros w. split; [vm_compute; reflexivity|]. split; [|reflexivity].
  apply getVotes_unbound_queryAll. constructor. now left.
Qed.

End VoteFacts.

(** ** Facts about the comment listing *)

Section ListingFacts.
Import CommentService.

(** With tallies that are not negative, the key of the 'controversial'
    mode is the number of votes when both tallies are positive, and 0
    otherwise. *)
Lemma controversial_integer (c : comment) :
  0 <= upvotes c -> 0 <= downvotes c ->
  controversial c =
    if (0 <? upvotes c) && (0 <? downvotes c) then upvotes c + downvotes c
    else 0.
Proof.
  intros Hu Hd. unfold controversial.
  destruct (Z.ltb_spec 0 (upvotes c)), (Z.ltb_spec 0 (downvotes c)); simpl.
  - rewrite Z.quot_small; lia.
  - assert (downvotes c = 0) as -> by lia.
    rewrite Z.add_0_r, Z.sub_0_r, Z.abs_eq, Z.max_l by lia.
    rewrite Z.quot_same by lia. lia.
  - assert (upvotes c = 0) as -> by lia.
    rewrite Z.add_0_l, Z.sub_0_l, Z.abs_opp, Z.abs_eq, Z.max_l by lia.
    rewrite Z.quot_same by lia. lia.
  - assert (upvotes c = 0) as -> by lia.
    assert (downvotes c = 0) as -> by lia.
    reflexivity.
Qed.

(** C8, on the code.  For 3 upvotes and 1 downvote the formula of the
    specification gives 4 * (1 - 2/4) = 2, and the key that the query
    computes is 4: the division is between integers and 2/4 is 0.  For no
    votes at all both are 0. *)
Theorem controversial_key_truncates :
  controversial (Sample.tallied 3 1) = 4 /\
  (Spec.controversy 3 1 == 2)%Q /\
  ~ (inject_Z (controversial (Sample.tallied 3 1)) == Spec.controversy 3 1)%Q /\
  controversial (Sample.tallied 0 0) = 0 /\
  (Spec.controversy 0 0 == 0)%Q.
Proof.
  split; [reflexivity|]. split; [reflexivity|].
  split; [|split; reflexivity].
  intros H. vm_compute in H. discriminate.
Qed.

Lemma precedes_total (clause : list order_term) (a b : comment) :
  precedes clause a b = false -> precedes clause b a = true.
Proof.
  induction clause as [|[col dir] rest IH]; simpl; [discriminate|].
  destruct dir;
    destruct (Z.ltb_spec (col a) (col b)), (Z.ltb_spec (col b) (col a));
    auto; try discriminate; lia.
Qed.

Lemma precedes_trans (clause : list order_term) (a b c : comment) :
  precedes clause a b = true -> precedes clause b c = true ->
  precedes clause a c = true.
Proof.
  induction clause as [|[col dir] rest IH]; simpl; [reflexivity|].
  destruct dir;
    destruct (Z.ltb_spec (col a) (col b)), (Z.ltb_spec (col b) (col a)),
             (Z.ltb_spec (col b) (col c)), (Z.ltb_spec (col c) (col b)),
             (Z.ltb_spec (col a) (col c)), (Z.ltb_spec (col c) (col a));
    auto; try discriminate; lia.
Qed.

(** What the first term [c.depth ASC] of the clause of the query means for
    two rows that the whole clause puts in order. *)
Lemma precedes_depth_first (rest : list order_term) (a b : comment) :
  precedes ((depth, ASC) :: rest) a b = true ->
  depth a <= depth b /\ (depth a = depth b -> precedes rest a b = true).
Proof.
  simpl.
  destruct (Z.ltb_spec (depth a) (depth b)), (Z.ltb_spec (depth b) (depth a));
    intros Hp; try discriminate; split; auto; lia.
Qed.

Lemma insert_row_Forall (P : comment -> Prop) clause r l :
  P r -> Forall P l -> Forall P (insert_row clause r l).
Proof.
  intros Hr. induction 1 as [|x l Hx Hl IH]; simpl.
  - now constructor.
  - destruct (precedes clause r x); repeat constructor; auto.
Qed.

Lemma insert_row_sorted clause r l :
  StronglySorted (fun a b => precedes clause a b = true) l ->
  StronglySorted (fun a b => precedes clause a b = true)
    (insert_row clause r l).
Proof.
  induction 1 as [|x l Hl IH Hx]; simpl.
  - repeat constructor.
  - destruct (precedes clause r x) eqn:Hrx.
    + constructor; [now constructor|].
      constructor; [exact Hrx|].
      eapply Forall_impl; [exact Hx|].
      intros y Hy. simpl in Hy. eapply precedes_trans; eauto.
    + constructor; [exact IH|].
      apply insert_row_Forall; [|exact Hx].
      now apply precedes_total.
Qed.

Lemma order_by_sorted clause rows :
  StronglySorted (fun a b => precedes clause a b = true)
    (order_by clause rows).
Proof.
  unfold order_by. induction rows as [|r rows IH]; simpl.
  - constructor.
  - now apply insert_row_sorted.
Qed.

Lemma take_sorted (R : comment -> comment -> Prop) (n : nat) l :
  StronglySorted R l -> StronglySorted R (take n l).
Proof.
  intros H. revert n. induction H as [|x l Hl IH Hx]; intros [|n]; simpl;
    try constructor; auto.
  apply Forall_take. exact Hx.
Qed.

Lemma sorted_lookup (R : comment -> comment -> Prop) l :
  StronglySorted R l ->
  forall (i j : nat) a b,
    (i < j)%nat -> l !! i = Some a -> l !! j = Some b -> R a b.
Proof.
  induction 1 as [|x l Hl IH Hx]; intros i j a b Hij Hi Hj.
  - now rewrite lookup_nil in Hi.
  - destruct j as [|j]; [lia|]. simpl in Hj.
    destruct i as [|i]; simpl in Hi.
    + injection Hi as <-.
      rewrite Forall_forall in Hx. apply Hx.
      eapply list_elem_of_lookup_2. exact Hj.
    + apply (IH i j); auto. lia.
Qed.

(** C7, as the code has it.  For every post, sort mode and limit,
    [getByPost] hands to the tree assembly the rows of its query, and these
    are ordered by the clause [c.depth ASC, orderBy]: first by ascending
    depth, and among rows of equal depth by the key of the sort mode.  So a
    row never stands before a row of smaller depth. *)
Theorem getByPost_rows_by_depth_then_mode (t : tables) (postId : string)
    (sort : option string) (limit : option nat) :
  exists rows,
    getByPost postId sort limit (available t) =
      (Ok (buildCommentTree rows), available t) /\
    select_by_post postId (default "top" sort) (default 100%nat limit) t
      = Some (rows, t) /\
    StronglySorted
      (fun a b =>
         precedes ((depth, ASC) :: orderBy (default "top" sort)) a b = true)
      rows /\
    forall (i j : nat) a b,
      (i < j)%nat -> rows !! i = Some a -> rows !! j = Some b ->
      depth a <= depth b /\
      (depth a = depth b ->
       precedes (orderBy (default "top" sort)) a b = true).
Proof.
  eexists. split; [reflexivity|]. split; [reflexivity|].
  assert (Hs : StronglySorted
    (fun a b =>
       precedes ((depth, ASC) :: orderBy (default "top" sort)) a b = true)
    (take (default 100%nat limit)
       (order_by ((depth, ASC) :: orderBy (default "top" sort))
          (joined postId t)))).
  { apply take_sorted, order_by_sorted. }
  split; [exact Hs|].
  intros i j a b Hij Hi Hj.
  apply precedes_depth_first.
  exact (sorted_lookup _ _ Hs i j a b Hij Hi Hj).
Qed.

(** C7, as stated, fails.  For the post p1 and the mode 'top' the query
    returns c1 (depth 0, score 0) before its reply c2 (depth 1, score 7):
    the rows are not ordered by the key of the mode first and depth
    second. *)
Lemma getByPost_rows_not_by_mode_first :
  exists rows,
    getByPost "p1" (Some "top") None (available Sample.store) =
      (Ok (buildCommentTree rows), available Sample.store) /\
    select_by_post "p1" "top" 100 Sample.store = Some (rows, Sample.store) /\
    id <$> rows = ["c1"; "c2"] /\
    depth <$> rows = [0; 1] /\
    score <$> rows = [0; 7] /\
    ~ StronglySorted
        (fun a b => precedes (Spec.listing_clause "top") a b = true) rows.
Proof.
  eexists. split; [|split; [vm_compute; reflexivity|]].
  { vm_compute. reflexivity. }
  split; [reflexivity|]. split; [reflexivity|]. split; [reflexivity|].
  intros H. inversion H as [|x l _ Hx]; subst.
  inversion Hx as [|y l' Hy _]; subst.
  vm_compute in Hy. discriminate.
Qed.

End ListingFacts.

(** ** Facts about the reply tree *)

Section TreeFacts.
Import CommentService.

Lemma indexed_snoc (l : list comment) c :
  indexed (l ++ [c]) = indexed l ++ [(length l, c)].
Proof.
  unfold indexed. rewrite imap_app. simpl. now rewrite Nat.add_0_r.
Qed.

Lemma indexed_elem (l : list comment) i c :
  In (i, c) (indexed l) <-> l !! i = Some c.
Proof.
  unfold indexed. rewrite <- list_elem_of_In, elem_of_lookup_imap. split.
  - intros (j & y & [= -> ->] & H). exact H.
  - intros H. now exists i, c.
Qed.

Lemma commentMap_snoc (l : list comment) c :
  (first_pass (l ++ [c])).2 = <[id c := length l]> (first_pass l).2.
Proof. unfold first_pass; simpl. now rewrite indexed_snoc, foldl_app. Qed.

(** With distinct ids the map of the first pass sends an id to the
    position of the one comment that has it. *)
Lemma commentMap_lookup (l : list comment) :
  NoDup (id <$> l) ->
  forall k i,
    (first_pass l).2 !! k = Some i <-> exists c, l !! i = Some c /\ id c = k.
Proof.
  induction l as [|c l IH] using rev_ind; intros Hnd k i.
  - unfold first_pass; simpl. rewrite lookup_empty. split; [discriminate|].
    intros (c & H & _). now rewrite lookup_nil in H.
  - rewrite fmap_app in Hnd. apply NoDup_app in Hnd as (Hnd & Hc & _).
    specialize (IH Hnd). rewrite commentMap_snoc.
    assert (Hfresh : forall j c', l !! j = Some c' -> id c' <> id c).
    { intros j c' Hj Heq. apply (Hc (id c)); [|simpl; left].
      rewrite <- Heq. apply list_elem_of_fmap. exists c'. split; [reflexivity|].
      eapply list_elem_of_lookup_2; eauto. }
    destruct (decide (id c = k)) as [<-|Hk].
    + rewrite lookup_insert_eq. split.
      * intros [= <-]. exists c. split; [|reflexivity].
        now rewrite lookup_app_r, Nat.sub_diag by lia.
      * intros (c' & Hl & Hid). f_equal.
        destruct (decide (i < length l)%nat) as [Hlt|Hge].
        -- rewrite lookup_app_l in Hl by exact Hlt.
           now destruct (Hfresh i c' Hl).
        -- apply lookup_lt_Some in Hl. rewrite length_app in Hl. simpl in Hl.
           lia.
    + rewrite lookup_insert_ne by exact Hk. rewrite IH. split.
      * intros (c' & Hl & Hid). exists c'. split; [|exact Hid].
        rewrite lookup_app_l; [exact Hl|]. now apply lookup_lt_Some in Hl.
      * intros (c' & Hl & Hid). exists c'. split; [|exact Hid].
        destruct (decide (i < length l)%nat) as [Hlt|Hge].
        -- now rewrite lookup_app_l in Hl by exact Hlt.
        -- rewrite lookup_app_r in Hl by lia.
           destruct (i - length l)%nat; simpl in Hl; [|discriminate].
           injection Hl as <-. contradiction.
Qed.

(** The second loop over any list of positions and comments: each one is
    appended to the replies of the object its parent id maps to, or to the
    roots. *)
Lemma attach_fold (commentMap : gmap string nat) (L : list (nat * comment)) :
  forall t0,
    rootComments (foldl (attach commentMap) t0 L) =
      rootComments t0 ++
      (fst <$> List.filter
                 (fun rc => bool_decide (parent_in commentMap rc.2 = None)) L) /\
    forall p,
      objects (foldl (attach commentMap) t0 L) !! p =
        (fun n =>
           {| row := row n;
              replies := replies n ++
                (fst <$> List.filter
                   (fun rc => bool_decide (parent_in commentMap rc.2 = Some p))
                   L) |}) <$> objects t0 !! p.
Proof.
  induction L as [|[ref c] L IH]; intros t0.
  - simpl. split; [now rewrite app_nil_r|]. intros p.
    destruct (objects t0 !! p) as [[r rs]|]; simpl; [|reflexivity].
    now rewrite app_nil_r.
  - change (foldl (attach commentMap) t0 ((ref, c) :: L))
      with (foldl (attach commentMap) (attach commentMap t0 (ref, c)) L).
    destruct (IH (attach commentMap t0 (ref, c))) as [Hroots Hobjs].
    rewrite Hroots. unfold attach at 1. cbn [List.filter snd].
    destruct (parent_in commentMap c) as [q|] eqn:Hq.
    + rewrite bool_decide_eq_false_2 by discriminate.
      split; [reflexivity|]. intros p. rewrite Hobjs.
      unfold attach; rewrite Hq. cbn [objects].
      destruct (decide (q = p)) as [->|Hne].
      * rewrite list_lookup_alter_eq, bool_decide_eq_true_2 by reflexivity.
        destruct (objects t0 !! p) as [[r rs]|]; simpl; [|reflexivity].
        now rewrite <- app_assoc.
      * rewrite list_lookup_alter_ne by exact Hne.
        rewrite bool_decide_eq_false_2 by congruence. reflexivity.
    + rewrite bool_decide_eq_true_2 by reflexivity.
      split; [cbn; now rewrite <- app_assoc|]. intros p. rewrite Hobjs.
      unfold attach; rewrite Hq. cbn [objects].
      rewrite bool_decide_eq_false_2 by discriminate. reflexivity.
Qed.

Lemma parent_in_truthy (commentMap : gmap string nat) (c : comment) :
  parent_id c <> Some "" ->
  parent_in commentMap c = parent_id c ≫= (commentMap !!.).
Proof.
  unfold parent_in, truthy. destruct (parent_id c) as [s|]; [|reflexivity].
  intros Hs. destruct (String.eqb_spec s ""); [congruence|reflexivity].
Qed.

Lemma commentMap_None (l : list comment) :
  NoDup (id <$> l) ->
  forall k, (first_pass l).2 !! k = None <-> k ∉ id <$> l.
Proof.
  intros Hnd k. split.
  - intros Hnone Hin. apply list_elem_of_fmap in Hin as (c & -> & Hc).
    apply list_elem_of_lookup in Hc as [i Hi].
    assert (H : (first_pass l).2 !! id c = Some i)
      by (apply (commentMap_lookup l Hnd); eauto).
    congruence.
  - intros Hnot. destruct ((first_pass l).2 !! k) as [i|] eqn:Hk; [|reflexivity].
    exfalso. apply (commentMap_lookup l Hnd) in Hk as (c & Hi & <-).
    apply Hnot. apply list_elem_of_fmap. exists c. split; [reflexivity|].
    eapply list_elem_of_lookup_2; eauto.
Qed.

(** C9.  For an input with pairwise distinct ids (UUID keys, so that a
    parent id that is set is not the empty string), [buildCommentTree] keeps
    one object per input comment, in input order; the replies of the object
    of a comment are exactly the comments whose parent id is its id, in
    input order; the roots are exactly the comments whose parent id is not
    the id of a comment of the input, in input order, so a comment whose
    parent is absent is a root.  On the input of four comments of the
    specification the roots are [1], the replies of 1 are [2, 3] and the
    replies of 2 are [4]. *)
Theorem buildCommentTree_threads (comments : list comment) :
  NoDup (id <$> comments) ->
  Forall (fun c => parent_id c <> Some "") comments ->
  let t := buildCommentTree comments in
  row <$> objects t = comments /\
  (forall (ref : nat) (c : comment),
     comments !! ref = Some c ->
     replies <$> objects t !! ref =
       Some (Spec.refs_where
               (fun c' => bool_decide (parent_id c' = Some (id c))) comments)) /\
  rootComments t =
    Spec.refs_where
      (fun c' => negb (Spec.present comments (parent_id c'))) comments /\
  (forall (ref : nat) (c : comment),
     comments !! ref = Some c ->
     Spec.present comments (parent_id c) = false ->
     ref ∈ rootComments t) /\
  (root_ids (buildCommentTree Sample.thread) = ["1"] /\
   reply_ids (buildCommentTree Sample.thread) "1" = Some ["2"; "3"] /\
   reply_ids (buildCommentTree Sample.thread) "2" = Some ["4"] /\
   reply_ids (buildCommentTree Sample.thread) "3" = Some [] /\
   reply_ids (buildCommentTree Sample.thread) "4" = Some []).
Proof.
  intros Hnd Hids t.
  pose (commentMap := (first_pass comments).2).
  pose (t0 := {| rootComments := [];
                 objects := (fun c => {| row := c; replies := [] |})
                              <$> comments |}).
  assert (Ht : t = foldl (attach commentMap) t0 (indexed comments))
    by reflexivity.
  destruct (attach_fold commentMap (indexed comments) t0) as [Hroots Hobjs].
  rewrite <- Ht in Hroots, Hobjs. simpl in Hroots.
  assert (Hin : forall j c', In (j, c') (indexed comments) ->
            parent_in commentMap c' = parent_id c' ≫= (commentMap !!.)).
  { intros j c' Hj. apply parent_in_truthy.
    rewrite Forall_forall in Hids. apply Hids.
    apply indexed_elem in Hj. eapply list_elem_of_lookup_2; eauto. }
  assert (Hrootseq : rootComments t =
    Spec.refs_where
      (fun c' => negb (Spec.present comments (parent_id c'))) comments).
  { rewrite Hroots. unfold Spec.refs_where. f_equal.
    apply filter_ext_in. intros [j c'] Hj. simpl.
    rewrite (Hin j c' Hj). unfold Spec.present.
    destruct (parent_id c') as [k|]; simpl.
    - destruct (commentMap !! k) as [i|] eqn:Hk.
      + rewrite bool_decide_eq_false_2 by discriminate.
        rewrite bool_decide_eq_true_2; [reflexivity|].
        destruct (decide (k ∈ id <$> comments)) as [|Hnot]; [assumption|].
        apply (commentMap_None comments Hnd) in Hnot.
        unfold commentMap in Hk. congruence.
      + rewrite bool_decide_eq_true_2 by reflexivity.
        rewrite bool_decide_eq_false_2; [reflexivity|].
        now apply (commentMap_None comments Hnd).
    - reflexivity. }
  split; [|split; [|split; [exact Hrootseq|split]]].
  - apply list_eq. intros i. rewrite list_lookup_fmap, Hobjs. simpl.
    rewrite list_lookup_fmap. now destruct (comments !! i).
  - intros ref c Hc. rewrite Hobjs. simpl.
    rewrite list_lookup_fmap, Hc. simpl. f_equal.
    unfold Spec.refs_where. f_equal.
    apply filter_ext_in. intros [j c'] Hj. simpl.
    rewrite (Hin j c' Hj). apply bool_decide_ext.
    destruct (parent_id c') as [k|]; simpl; [|split; discriminate].
    unfold commentMap. rewrite (commentMap_lookup comments Hnd). split.
    + intros (c0 & Hc0 & <-). congruence.
    + intros [= ->]. eauto.
  - intros ref c Hc Habsent. rewrite Hrootseq. unfold Spec.refs_where.
    apply list_elem_of_fmap. exists (ref, c). split; [reflexivity|].
    apply list_elem_of_In, filter_In. split.
    + now apply indexed_elem.
    + simpl. now rewrite Habsent.
  - vm_compute. repeat split; reflexivity.
Qed.

End TreeFacts.

(** ** The theorems at concrete inputs *)

Section Instances.

(** Three checks at 0 s, 1 s and 2 s against 2 per minute. *)
Lemma checkLimit_admits_exactly_max_at_2_per_minute :
  let lim := {| RateLimit.max := 2; RateLimit.window := 60 |} in
  let ds := (RateLimit.run_checks "rl:requests:alice" lim [0; 1000; 2000] ∅).1 in
  length ds = 3%nat /\
  (forall i : nat, (i < 2)%nat ->
     exists d, ds !! i = Some d /\ RateLimit.allowed d = true /\
               RateLimit.remaining d = 2 - 1 - Z.of_nat i) /\
  (exists d, ds !! 2%nat = Some d /\ RateLimit.allowed d = false /\
             RateLimit.remaining d = 0).
Proof.
  apply (checkLimit_admits_exactly_max "rl:requests:alice"
           {| RateLimit.max := 2; RateLimit.window := 60 |} ∅ [0; 1000; 2000]).
  - simpl. lia.
  - reflexivity.
  - reflexivity.
  - intros i j ti tj Hij Hi Hj.
    destruct i as [|[|[|i]]], j as [|[|[|j]]]; simpl in Hi, Hj;
      try discriminate; try lia;
      injection Hi as <-; injection Hj as <-; simpl; lia.
Defined.

(** A second check one second after the only admitted one, against 1 per
    minute. *)
Lemma checkLimit_denied_consumes_nothing_at_1_per_minute :
  let lim := {| RateLimit.max := 1; RateLimit.window := 60 |} in
  let st : gmap string (list RateLimit.entry) :=
    <["rl:posts:alice" := [{| RateLimit.timestamp := 0 |}]]> ∅ in
  RateLimit.allowed (RateLimit.checkLimit 1000 "rl:posts:alice" lim st).1 = false /\
  (RateLimit.checkLimit 1000 "rl:posts:alice" lim st).2 = st /\
  (RateLimit.checkLimit 1000 "rl:posts:alice" lim st).2 !! "rl:posts:alice"
    = st !! "rl:posts:alice" /\
  forall now' lim',
    RateLimit.checkLimit now' "rl:posts:alice" lim'
      (RateLimit.checkLimit 1000 "rl:posts:alice" lim st).2 =
    RateLimit.checkLimit now' "rl:posts:alice" lim' st.
Proof.
  intros lim st. split; [reflexivity|].
  apply (checkLimit_denied_consumes_nothing 1000 "rl:posts:alice" lim st).
  reflexivity.
Defined.

(** Alice upvotes the post p1 of bob, then upvotes it again. *)
Lemma vote_follows_transition_table_on_sample :
  let p := VoteService.Build_params "p1" "post" "alice" 1 in
  exists r t',
    VoteService.vote p (available Sample.store) = (Ok r, available t') /\
    VoteService.action r = "upvoted" /\
    VoteService.stored_vote t' "alice" "p1" "post" = Some 1 /\
    VoteService.target_score t' "p1" "post" = Some (5 + 1) /\
    VoteService.karma_of t' "bob" = Some (10 + 1) /\
    (VoteService.stored_rows t' "alice" "p1" "post" <= 1)%nat /\
    NoDup (Votes.key <$> votes t') /\
    (VoteService.stored_vote Sample.store "alice" "p1" "post" = None ->
     exists r2 t'',
       VoteService.vote p (available t') = (Ok r2, available t'') /\
       VoteService.action r2 = "removed" /\
       VoteService.stored_vote t'' "alice" "p1" "post" = None /\
       (VoteService.stored_rows t'' "alice" "p1" "post" = 0)%nat /\
       VoteService.target_score t'' "p1" "post" = Some 5 /\
       VoteService.karma_of t'' "bob" = Some 10).
Proof.
  intros p.
  apply (vote_follows_transition_table Sample.store p "bob" 10 5
           (Some 1) "upvoted" 1).
  - reflexivity.
  - discriminate.
  - reflexivity.
  - reflexivity.
  - constructor.
  - reflexivity.
Defined.

(** Bob votes on his own post. *)
Lemma vote_on_own_content_rejected_on_sample :
  let p := VoteService.Build_params "p1" "post" "bob" 1 in
  exists w',
    VoteService.vote p (available Sample.store) =
      (Throw (BadRequestError "Cannot vote on your own content"), w') /\
    db w' = db (available Sample.store).
Proof.
  intros p.
  apply (vote_on_own_content_rejected (available Sample.store) p).
  - reflexivity.
  - discriminate.
Defined.

(** The thread of the specification. *)
Lemma buildCommentTree_threads_on_sample :
  let t := CommentService.buildCommentTree Sample.thread in
  CommentService.row <$> CommentService.objects t = Sample.thread /\
  CommentService.rootComments t = [0%nat] /\
  CommentService.replies <$> CommentService.objects t = [[1; 2]; [3]; []; []]%nat.
Proof.
  intros t.
  destruct (buildCommentTree_threads Sample.thread) as (Hrows & _ & Hroots & _).
  - apply (bool_decide_unpack _). vm_compute. exact I.
  - repeat constructor; discriminate.
  - split; [exact Hrows|]. split; [exact Hroots|]. reflexivity.
Defined.

End Instances.

(** ** More facts about the rate limiter *)

Section AdmissionFacts.
Import RateLimit.

Implicit Types (st : storage) (lim : limit_config) (key : string).

Lemma Math_min_In (x : Z) (xs : list Z) : In (Math_min x xs) (x :: xs).
Proof.
  unfold Math_min. revert x. induction xs as [|y ys IH]; intros x; simpl.
  - now left.
  - destruct (IH (Z.min x y)) as [H|H].
    + rewrite <- H. destruct (Z.min_spec x y) as [[_ ->]|[_ ->]]; auto.
    + auto.
Qed.

Lemma filter_length_lt {A} (f : A -> bool) (l : list A) (e : A) :
  In e l -> f e = false ->
  (length (List.filter f l) < length l)%nat.
Proof.
  induction l as [|x l IH]; simpl; [tauto|].
  intros [->|He] Hf.
  - rewrite Hf. pose proof (List.filter_length_le f l). lia.
  - specialize (IH He Hf). destruct (f x); simpl; lia.
Qed.

Lemma filter_in_window_twice (ws1 ws2 : Z) (es : list entry) :
  ws1 <= ws2 ->
  List.filter (in_window ws2) (List.filter (in_window ws1) es) =
  List.filter (in_window ws2) es.
Proof.
  intros Hle. induction es as [|e es IH]; simpl; [reflexivity|].
  destruct (in_window ws1 e) eqn:H1; simpl;
    destruct (in_window ws2 e) eqn:H2; try (now rewrite IH).
  unfold in_window in *. apply Z.leb_le in H2. apply Z.leb_gt in H1. lia.
Qed.

(** The decision of a check, and the history it stores when it admits,
    depend on the storage only through the events of the key that are
    still in the window. *)
Lemma checkLimit_history_only now key lim st1 st2 :
  List.filter (in_window (now - window lim * 1000)) (default [] (st1 !! key)) =
  List.filter (in_window (now - window lim * 1000)) (default [] (st2 !! key)) ->
  (checkLimit now key lim st1).1 = (checkLimit now key lim st2).1 /\
  (allowed (checkLimit now key lim st1).1 = true ->
   (checkLimit now key lim st1).2 !! key =
   (checkLimit now key lim st2).2 !! key).
Proof.
  unfold checkLimit. intros ->.
  destruct (List.map timestamp _) as [|t ts]; simpl; (split; [reflexivity|]);
    intros ->; now rewrite !lookup_insert_eq.
Qed.

Lemma denied_check_keeps_storage now key lim st :
  allowed (checkLimit now key lim st).1 = false ->
  (checkLimit now key lim st).2 = st.
Proof.
  unfold checkLimit.
  destruct (List.map timestamp _); simpl; intros ->; reflexivity.
Qed.

(** X1. A check of one key leaves the history of every other key as it
    was, and a later check of another key decides as if the first check
    had not been made. *)
Theorem checkLimit_other_key now key lim st now' key' lim' :
  key <> key' ->
  (checkLimit now key lim st).2 !! key' = st !! key' /\
  (checkLimit now' key' lim' (checkLimit now key lim st).2).1 =
  (checkLimit now' key' lim' st).1.
Proof.
  intros Hne.
  assert (Hframe : (checkLimit now key lim st).2 !! key' = st !! key').
  { unfold checkLimit. destruct (List.map timestamp _); simpl;
      (destruct (_ <? _); [now apply lookup_insert_ne|reflexivity]). }
  split; [exact Hframe|].
  apply checkLimit_history_only. now rewrite Hframe.
Qed.

(** X2. After an admitted check the history of the key ends with the
    event of this check, holds [max - remaining] events, so at most [max],
    and, for a window that is not negative, only events inside the
    window. *)
Theorem checkLimit_admitted_history now key lim st :
  0 <= window lim ->
  allowed (checkLimit now key lim st).1 = true ->
  let d := (checkLimit now key lim st).1 in
  let h := default [] ((checkLimit now key lim st).2 !! key) in
  last h = Some {| timestamp := now |} /\
  Z.of_nat (length h) + remaining d = max lim /\
  0 <= remaining d /\
  Forall (fun e => now - window lim * 1000 <= timestamp e) h.
Proof.
  intros Hw. unfold checkLimit.
  set (es := List.filter _ _).
  assert (Hes : Forall (fun e => now - window lim * 1000 <= timestamp e) es).
  { apply Forall_forall. intros e He. apply list_elem_of_In, filter_In in He.
    destruct He as [_ He]. unfold in_window in He. lia. }
  destruct (List.map timestamp es) as [|t ts]; simpl;
    (destruct (Z.ltb_spec (Z.of_nat (length es)) (max lim)); [|discriminate]);
    intros _; rewrite lookup_insert_eq; simpl;
    (split; [apply last_snoc|]);
    (split; [rewrite length_app; simpl; lia|]);
    (split; [lia|]);
    (apply Forall_app; split; [exact Hes|]);
    repeat constructor; simpl; lia.
Qed.

(** X3. A key that was denied while its history held at most [max]
    events, for a limit with [max >= 1], is admitted again by any check made
    after the [resetAt] of the denial. *)
Theorem checkLimit_admits_after_reset now key lim st now' :
  1 <= max lim ->
  Z.of_nat (length (default [] (st !! key))) <= max lim ->
  allowed (checkLimit now key lim st).1 = false ->
  resetAt (checkLimit now key lim st).1 < now' ->
  allowed (checkLimit now' key lim st).1 = true.
Proof.
  intros Hmax Hlen. unfold checkLimit.
  set (es := default [] (st !! key)) in *.
  set (F := List.filter (in_window (now - window lim * 1000)) es).
  set (F' := List.filter (in_window (now' - window lim * 1000)) es).
  assert (HF : forall e, In e F -> In e es)
    by (intros e He; apply filter_In in He; tauto).
  destruct (List.map timestamp F) as [|t ts] eqn:Hmap; simpl.
  - assert (HF0 : length F = 0%nat)
      by (rewrite <- (length_map timestamp), Hmap; reflexivity).
    rewrite HF0. intros Hd _. apply Z.ltb_ge in Hd. simpl in Hd. lia.
  - destruct (Z.ltb_spec (Z.of_nat (length F)) (max lim)); [discriminate|].
    intros _ Hreset.
    destruct (List.map timestamp F') as [|t' ts']; simpl;
      apply Z.ltb_lt;
      (pose proof (Math_min_In t ts) as Hin; rewrite <- Hmap in Hin;
       apply in_map_iff in Hin as (e & He & Hin);
       assert (Hout : in_window (now' - window lim * 1000) e = false)
         by (unfold in_window; apply Z.leb_gt; lia);
       pose proof (filter_length_lt _ es e (HF e Hin) Hout) as Hlt;
       fold F' in Hlt; lia).
Qed.

(** X4. The fields of every decision: [limit] is [max]; [remaining] is
    never negative; an admitted check has [retryAfter = 0] and fewer than
    [max] remaining; a denied one has nothing remaining and a [retryAfter]
    that is not negative and, for [max >= 1], is the number of whole seconds
    that reaches [resetAt]. *)
Theorem checkLimit_decision_bounds now key lim st :
  let d := (checkLimit now key lim st).1 in
  limit d = max lim /\
  0 <= remaining d /\
  (allowed d = true -> retryAfter d = 0 /\ remaining d < max lim) /\
  (allowed d = false ->
   remaining d = 0 /\ 0 <= retryAfter d /\
   (1 <= max lim ->
    resetAt d <= now + retryAfter d * 1000 < resetAt d + 1000)).
Proof.
  unfold checkLimit.
  set (es := List.filter _ _).
  assert (Hes : forall e, In e es -> now - window lim * 1000 <= timestamp e).
  { intros e He. apply filter_In in He as [_ He].
    unfold in_window in He. lia. }
  destruct (List.map timestamp es) as [|t ts] eqn:Hmap; simpl.
  - assert (Hes0 : length es = 0%nat)
      by (rewrite <- (length_map timestamp), Hmap; reflexivity).
    rewrite Hes0. change (Z.of_nat 0) with 0.
    split; [reflexivity|]. split; [lia|].
    destruct (Z.ltb_spec 0 (max lim)); split; intros; try discriminate;
      repeat split; lia.
  - pose proof (Math_min_In t ts) as Hin. rewrite <- Hmap in Hin.
    apply in_map_iff in Hin as (e & He & Hin). apply Hes in Hin.
    set (oldest := Math_min t ts) in *.
    split; [reflexivity|]. split; [lia|].
    destruct (Z.ltb_spec (Z.of_nat (length es)) (max lim));
      (split; [intros; try discriminate|]); intros; try discriminate.
    + split; [reflexivity|lia].
    + unfold ceil_div1000.
      pose proof (Z.div_mod (- (oldest + window lim * 1000 - now)) 1000
                    ltac:(lia)) as Hdm.
      pose proof (Z.mod_pos_bound (- (oldest + window lim * 1000 - now)) 1000
                    ltac:(lia)) as Hmod.
      repeat split; lia.
Qed.

Lemma cleanup_lookup (swept : Z) st key :
  default [] (cleanup swept st !! key) =
  List.filter (in_window (swept - 3600000)) (default [] (st !! key)).
Proof.
  unfold cleanup. rewrite lookup_omap.
  destruct (st !! key) as [es|]; simpl; [|reflexivity].
  now destruct (List.filter _ es).
Qed.

(** X5. For a limit whose window is at most one hour, a sweep made at or
    before a check does not change what the check decides. *)
Theorem cleanup_keeps_decisions (swept : Z) now key lim st :
  window lim * 1000 <= 3600000 ->
  swept <= now ->
  (checkLimit now key lim (cleanup swept st)).1 =
  (checkLimit now key lim st).1.
Proof.
  intros Hw Hs. apply checkLimit_history_only.
  rewrite cleanup_lookup. apply filter_in_window_twice. lia.
Qed.

(** X6. After a sweep every key that is left has a history that is not
    empty, is what the sweep kept of its old history, and holds no event
    older than one hour; and a later sweep of the swept storage gives what
    it would give on the original storage. *)
Theorem cleanup_leaves_recent_histories (swept later : Z) st :
  swept <= later ->
  (forall key es,
     cleanup swept st !! key = Some es ->
     es <> [] /\
     Forall (fun e => swept - 3600000 <= timestamp e) es /\
     exists es0, st !! key = Some es0 /\
                 es = List.filter (in_window (swept - 3600000)) es0) /\
  cleanup later (cleanup swept st) = cleanup later st.
Proof.
  intros Hle. split.
  - intros key es. unfold cleanup. rewrite lookup_omap.
    destruct (st !! key) as [es0|]; simpl; [|discriminate].
    destruct (List.filter _ es0) as [|e l] eqn:Hf; [discriminate|].
    intros [= <-]. split; [discriminate|]. split.
    + apply Forall_forall. intros x Hx.
      apply list_elem_of_In in Hx. rewrite <- Hf in Hx.
      apply filter_In in Hx as [_ Hx]. unfold in_window in Hx. lia.
    + exists es0. now rewrite Hf.
  - apply map_eq. intros key. unfold cleanup. rewrite !lookup_omap.
    destruct (st !! key) as [es0|]; simpl; [|reflexivity].
    pose proof (filter_in_window_twice (swept - 3600000) (later - 3600000)
                  es0 ltac:(lia)) as Htwice.
    destruct (List.filter (in_window (swept - 3600000)) es0) as [|e l];
      simpl in *.
    + now rewrite <- Htwice.
    + now rewrite Htwice.
Qed.

Lemma append_colon_inj (a b x y : string) :
  ~ In colon (String.list_ascii_of_string a) ->
  ~ In colon (String.list_ascii_of_string b) ->
  String.append a (String colon x) = String.append b (String colon y) ->
  a = b /\ x = y.
Proof.
  revert b. induction a as [|c a IH]; intros [|c' b]; simpl; intros Ha Hb Heq.
  - now injection Heq as ->.
  - injection Heq as <- _. tauto.
  - injection Heq as -> _. tauto.
  - injection Heq as -> Heq.
    destruct (IH b) as [-> ->]; auto.
Qed.

(** X7. For limit types that hold no colon, two requests get the same key
    only for the same limit type and the same identifier (token, else
    address, else "anonymous"): each limit type has its own counters. *)
Theorem getKey_separates (req1 req2 : request) (ty1 ty2 : string) :
  ~ In colon (String.list_ascii_of_string ty1) ->
  ~ In colon (String.list_ascii_of_string ty2) ->
  getKey req1 ty1 = getKey req2 ty2 ->
  ty1 = ty2 /\
  or_else (token req1) (or_else (ip req1) "anonymous") =
  or_else (token req2) (or_else (ip req2) "anonymous").
Proof.
  intros H1 H2. unfold getKey. simpl. intros [= Heq].
  now apply append_colon_inj.
Qed.

(** X8. When the middleware hands an error to [next], the error is the
    rate-limit error with the message of the options and the [retryAfter]
    that the [Retry-After] header carries, the headers report the ceiling
    and nothing remaining, and the storage is as it was before the
    request. *)
Theorem rateLimit_rejection (rateLimits : gmap string limit_config)
    (limitType : option string) (opts : options) mw
    now (req : request) (headers : gmap string Z) st h st' e :
  rateLimit rateLimits limitType opts = Some mw ->
  mw now req headers st = (h, st') ->
  next_error h = Some e ->
  st' = st /\
  req_rateLimit h = None /\
  exists lim retry,
    rateLimits !! default "requests" limitType = Some lim /\
    e = RateLimitError (default "Rate limit exceeded" (message opts)) retry /\
    0 <= retry /\
    res_headers h !! "Retry-After" = Some retry /\
    res_headers h !! "X-RateLimit-Remaining" = Some 0 /\
    res_headers h !! "X-RateLimit-Limit" = Some (max lim).
Proof.
  unfold rateLimit.
  destruct (rateLimits !! default "requests" limitType) as [lim|] eqn:Hlim;
    [|discriminate].
  intros [= <-].
  destruct (default (fun _ => false) (skip opts) req).
  { intros [= <- <-]. simpl. discriminate. }
  set (key := default _ (keyGenerator opts) req).
  pose proof (checkLimit_decision_bounds now key lim st) as Hb.
  pose proof (denied_check_keeps_storage now key lim st) as Hd.
  destruct (checkLimit now key lim st) as [d st1]. simpl in Hb, Hd.
  destruct Hb as (Hlimit & _ & _ & Hden).
  destruct (allowed d) eqn:Ha; simpl.
  { intros [= <- <-]. simpl. discriminate. }
  specialize (Hden eq_refl) as (Hrem & Hretry & _).
  intros [= <- <-]. simpl. intros [= <-].
  split; [now apply Hd|]. split; [reflexivity|].
  exists lim, (retryAfter d). split; [reflexivity|]. split; [reflexivity|].
  split; [exact Hretry|].
  rewrite lookup_insert_eq. split; [reflexivity|].
  do 2 (rewrite lookup_insert_ne by discriminate).
  rewrite lookup_insert_eq, Hrem. split; [reflexivity|].
  do 3 (rewrite lookup_insert_ne by discriminate).
  now rewrite lookup_insert_eq, Hlimit.
Qed.

Lemma checkLimit_step now key lim st :
  let H := default [] (st !! key) in
  let F := List.filter (in_window (now - window lim * 1000)) H in
  allowed (checkLimit now key lim st).1
    = (Z.of_nat (length F) <? max lim) /\
  default [] ((checkLimit now key lim st).2 !! key) =
    (if allowed (checkLimit now key lim st).1
     then F ++ [{| timestamp := now |}] else H).
Proof.
  unfold checkLimit.
  destruct (List.map timestamp _) as [|x xs]; simpl; (split; [reflexivity|]);
    (destruct (_ <? _); [now rewrite lookup_insert_eq|reflexivity]).
Qed.

Lemma filter_times_entries (ws : Z) (H : list entry) :
  List.filter (fun x => ws <=? x) (timestamp <$> H) =
  timestamp <$> List.filter (in_window ws) H.
Proof.
  induction H as [|e H IH]; [reflexivity|].
  rewrite fmap_cons. cbn [List.filter]. unfold in_window at 1.
  destruct (ws <=? timestamp e); [rewrite fmap_cons|]; now rewrite IH.
Qed.

Lemma filter_times_twice (ws1 ws2 : Z) (l : list Z) :
  ws1 <= ws2 ->
  List.filter (fun x => ws2 <=? x) (List.filter (fun x => ws1 <=? x) l) =
  List.filter (fun x => ws2 <=? x) l.
Proof.
  intros Hle. induction l as [|x l IH]; simpl; [reflexivity|].
  destruct (Z.leb_spec ws1 x); simpl.
  - destruct (ws2 <=? x); now rewrite IH.
  - destruct (Z.leb_spec ws2 x); [lia|exact IH].
Qed.

(** A run of checks at clock readings that do not go back, from a history
    that answers for the admitted checks [A] so far: every window that
    ends at a check of the run holds at most [max] admitted checks. *)
Lemma run_checks_window key lim : forall nows st (A : list Z) (t0 : Z),
  0 <= window lim ->
  Z.of_nat (length (default [] (st !! key))) <= max lim ->
  (forall s, t0 <= s ->
     List.filter (fun x => s - window lim * 1000 <=? x) A =
     List.filter (fun x => s - window lim * 1000 <=? x)
       (timestamp <$> default [] (st !! key))) ->
  Forall (fun t => t0 <= t) nows ->
  (forall (i j : nat) ti tj, (i < j)%nat ->
     nows !! i = Some ti -> nows !! j = Some tj -> ti <= tj) ->
  forall (j : nat) tj,
    nows !! j = Some tj ->
    Z.of_nat (length (List.filter (fun x => tj - window lim * 1000 <=? x)
      (A ++ admitted (take (S j) nows) (run_checks key lim nows st).1)))
    <= max lim.
Proof.
  induction nows as [|now nows IH]; intros st A t0 Hw Hlen Hinv Hge Hmono j tj Hj.
  { now rewrite lookup_nil in Hj. }
  pose proof (checkLimit_step now key lim st) as [Hall Hhist].
  simpl in Hall, Hhist. simpl.
  destruct (checkLimit now key lim st) as [d st1]. simpl in Hall, Hhist.
  specialize (IH st1).
  destruct (run_checks key lim nows st1) as [ds st2]. simpl in *.
  set (H := default [] (st !! key)) in *.
  set (F := List.filter (in_window (now - window lim * 1000)) H) in *.
  assert (Hnow : t0 <= now) by (now inversion Hge).
  assert (HF : List.filter (fun x => now - window lim * 1000 <=? x) A =
               timestamp <$> F).
  { rewrite (Hinv now Hnow). apply filter_times_entries. }
  assert (HFlen : (length F <= length H)%nat) by apply List.filter_length_le.
  unfold admitted in *. simpl.
  destruct j as [|j].
  - simpl in Hj. injection Hj as <-. rewrite take_0. simpl.
    destruct (allowed d) eqn:Ha; simpl.
    + rewrite List.filter_app, HF, length_app, length_fmap. simpl.
      destruct (Z.leb_spec (now - window lim * 1000) now); [|lia]. simpl.
      symmetry in Hall. apply Z.ltb_lt in Hall. lia.
    + rewrite app_nil_r, HF, length_fmap. lia.
  - simpl in Hj.
    assert (Htj : now <= tj)
      by (apply (Hmono 0%nat (S j) now tj); [lia|reflexivity|exact Hj]).
    assert (Hge1 : Forall (fun t => now <= t) nows).
    { apply Forall_forall. intros t Ht.
      apply list_elem_of_lookup in Ht as [i Hi].
      apply (Hmono 0%nat (S i) now t); [lia|reflexivity|exact Hi]. }
    assert (Hmono1 : forall (i j : nat) ti tj, (i < j)%nat ->
              nows !! i = Some ti -> nows !! j = Some tj -> ti <= tj).
    { intros i j' ti tj' Hij Hi Hj'.
      apply (Hmono (S i) (S j') ti tj'); [lia|exact Hi|exact Hj']. }
    destruct (allowed d) eqn:Ha; simpl.
    + specialize (IH (A ++ [now]) now Hw).
      rewrite Hhist in IH.
      assert (IH' := fun H1 H2 => IH H1 H2 Hge1 Hmono1 j tj Hj).
      rewrite <- app_assoc in IH'. apply IH'.
      * rewrite length_app. simpl. symmetry in Hall. apply Z.ltb_lt in Hall.
        lia.
      * intros s Hs. rewrite fmap_app, !List.filter_app. f_equal.
        rewrite <- HF, filter_times_twice by lia. reflexivity.
    + specialize (IH A now Hw). rewrite Hhist in IH.
      apply IH; auto.
      intros s Hs. apply Hinv. lia.
Qed.

(** X24. In a run of checks of one key and one limit, from an empty
    history and at clock readings that do not go back, every window that
    ends at a check holds at most [max] admitted checks, the check itself
    counted. *)
Theorem checkLimit_at_most_max_per_window key lim nows st :
  0 <= max lim ->
  0 <= window lim ->
  default [] (st !! key) = [] ->
  (forall (i j : nat) ti tj, (i < j)%nat ->
     nows !! i = Some ti -> nows !! j = Some tj -> ti <= tj) ->
  forall (j : nat) tj,
    nows !! j = Some tj ->
    Z.of_nat (length (List.filter (fun x => tj - window lim * 1000 <=? x)
      (admitted (take (S j) nows) (run_checks key lim nows st).1)))
    <= max lim.
Proof.
  intros Hmax Hw Hempty Hmono j tj Hj.
  destruct nows as [|t0 nows]; [now rewrite lookup_nil in Hj|].
  apply (run_checks_window key lim (t0 :: nows) st [] t0); auto.
  - rewrite Hempty. simpl. lia.
  - intros s Hs. now rewrite Hempty.
  - apply Forall_forall. intros t Ht.
    apply list_elem_of_lookup in Ht as [[|i] Hi].
    + injection Hi as <-. lia.
    + apply (Hmono 0%nat (S i) t0 t); [lia|reflexivity|exact Hi].
Qed.

End AdmissionFacts.

(** ** More facts about the vote ledger *)

Section LedgerFacts.
Import VoteService.

Implicit Types (t : tables) (v : Votes.row).

Lemma find_filter_keep {A} (f g : A -> bool) (l : list A) :
  (forall x, In x l -> f x = true -> g x = true) ->
  List.find f (List.filter g l) = List.find f l.
Proof.
  induction l as [|x l IH]; simpl; intros H; [reflexivity|].
  destruct (g x) eqn:Hg; simpl.
  - destruct (f x); [reflexivity|]. apply IH. intros y Hy. apply H. now right.
  - destruct (f x) eqn:Hf.
    + rewrite (H x) in Hg by auto. discriminate.
    + apply IH. intros y Hy. apply H. now right.
Qed.

Lemma find_snoc_other {A} (f : A -> bool) (l : list A) (x : A) :
  f x = false -> List.find f (l ++ [x]) = List.find f l.
Proof.
  intros Hx. induction l as [|y l IH]; simpl.
  - now rewrite Hx.
  - now destruct (f y).
Qed.

Lemma id_unique (vs : list Votes.row) x y :
  NoDup (Votes.id <$> vs) -> In x vs -> In y vs ->
  Votes.id x = Votes.id y -> x = y.
Proof.
  induction vs as [|z vs IH]; simpl; [tauto|].
  rewrite NoDup_cons. intros [Hz Hnd] [->|Hx] [->|Hy] Hk; auto.
  - exfalso. apply Hz. rewrite Hk. apply list_elem_of_fmap.
    exists y. split; [reflexivity|]. now apply list_elem_of_In.
  - exfalso. apply Hz. rewrite <- Hk. apply list_elem_of_fmap.
    exists x. split; [reflexivity|]. now apply list_elem_of_In.
Qed.

Lemma getVote_available t ag i ty :
  getVote ag i ty (available t) =
    (Ok (match stored_vote t ag i ty with
         | Some c => if decide (c = 0) then None else Some c
         | None => None
         end), available t).
Proof.
  unfold getVote, stored_vote.
  erewrite bind_Ok by (apply queryOne_available; reflexivity).
  rewrite head_filter_find.
  now destruct (List.find _ (votes t)).
Qed.

(** X9. After a vote by an agent other than the author, with a value that
    is not 0, reading the agent's vote on the target gives the requested
    value, or nothing when the call removed the stored vote. *)
Theorem getVote_after_vote t (p : params) a (k s : Z) :
  target_author t (targetId p) (targetType p) = Some a ->
  a <> agentId p ->
  karma_of t a = Some k ->
  target_score t (targetId p) (targetType p) = Some s ->
  NoDup (Votes.key <$> votes t) ->
  value p <> 0 ->
  exists r t',
    vote p (available t) = (Ok r, available t') /\
    getVote (agentId p) (targetId p) (targetType p) (available t') =
      (Ok (if decide (action r = "removed") then None else Some (value p)),
       available t').
Proof.
  intros Ha Hne Hk Hs Hnd Hv.
  destruct (vote_available t p a k s Ha Hne Hk Hs Hnd)
    as (r & t' & next & delta & Hrun & Hout & Hnext & _).
  exists r, t'. split; [exact Hrun|].
  rewrite getVote_available, Hnext.
  destruct (stored_vote t (agentId p) (targetId p) (targetType p)) as [c|].
  - destruct (decide (c = value p)); injection Hout as -> -> _; simpl.
    + reflexivity.
    + destruct (decide (value p = 0)); [contradiction|reflexivity].
  - injection Hout as -> Hact _.
    destruct (decide (value p = 0)); [contradiction|].
    destruct (decide (action r = "removed")) as [Hr|_]; [|reflexivity].
    rewrite Hr in Hact. now destruct (decide (value p = 1)).
Qed.

(** X10. A vote on a target that does not exist, or of a type that is
    neither post nor comment, throws before any write: the not-found error
    for a missing post or comment, the bad-request error for another type,
    and every table is as it was. *)
Theorem vote_without_target (w : world) (p : params) :
  target_author (db w) (targetId p) (targetType p) = None ->
  queries_left w <> Some 0%nat ->
  exists w',
    vote p w =
      (Throw (if decide (targetType p = "post") then NotFoundError "Post"
              else if decide (targetType p = "comment") then
                NotFoundError "Comment"
              else BadRequestError "Invalid target type"), w') /\
    db w' = db w.
Proof.
  destruct p as [i ty ag value]; simpl. intros Ha Hq.
  unfold vote, getTarget, target_author in *.
  destruct (decide (ty = "post")) as [Hp|Hp].
  - destruct (posts (db w) !! i) as [post|] eqn:Hl; [discriminate|].
    unfold bind, queryOne, Database.binding, Database.queryOne,
      Database.query, bind, select_post; simpl.
    rewrite Hl; simpl.
    destruct (queries_left w) as [[|n]|]; [contradiction| |]; simpl;
      eexists; split; reflexivity.
  - destruct (decide (ty = "comment")) as [Hc|Hc].
    + destruct (comments (db w) !! i) as [c|] eqn:Hl; [discriminate|].
      unfold bind, queryOne, Database.binding, Database.queryOne,
        Database.query, bind, select_comment; simpl.
      rewrite Hl; simpl.
      destruct (queries_left w) as [[|n]|]; [contradiction| |]; simpl;
        eexists; split; reflexivity.
    + eexists; split; reflexivity.
Qed.

(** The first half of [vote], with the table it leaves written out. *)
Lemma write_vote_ledger t ag i ty (value : Z) :
  let p := {| targetId := i; targetType := ty; agentId := ag;
              value := value |} in
  exists out,
    (match List.find (is_vote_of ag i ty) (votes t) with
     | Some existingVote =>
         if decide (Votes.value existingVote = value) then
           queryOne (delete_vote (Votes.id existingVote)) ;;;
           ret ("removed", - value, - value)
         else
           queryOne (update_vote (Votes.id existingVote) value) ;;;
           ret ("changed", value * 2, value * 2)
     | None =>
         queryOne (insert_vote ag i ty value) ;;;
         ret (if decide (value = VOTE_UP) then "upvoted" else "downvoted",
              value, value)
     end) (available t) =
      (Ok out,
       available (with_votes t (ledger_after t p).1 (ledger_after t p).2)) /\
    out.1.2 = out.2.
Proof.
  intros p. unfold ledger_after; simpl.
  destruct (List.find (is_vote_of ag i ty) (votes t)) as [e|] eqn:Hfind.
  - destruct (decide (Votes.value e = value)); eexists; (split;
      [erewrite bind_Ok by (apply queryOne_available; reflexivity);
       reflexivity|reflexivity]).
  - eexists. split.
    { erewrite bind_Ok.
      2:{ apply queryOne_available. unfold insert_vote.
          rewrite (find_None_existsb _ _ Hfind). reflexivity. }
      reflexivity. }
    reflexivity.
Qed.

(** The second half of [vote], with what it leaves alone. *)
Lemma propagate_frame t i ty a (k s : Z) (scoreDelta karmaDelta : Z)
    (up : bool) {B} (rest : option Agents.row -> M B) :
  target_author t i ty = Some a ->
  karma_of t a = Some k ->
  target_score t i ty = Some s ->
  exists t',
    ((if decide (ty = "post") then PostService.updateScore i scoreDelta
      else CommentService.updateScore i scoreDelta up ;;; ret tt) ;;;
     AgentService.updateKarma a karmaDelta ;;;
     author <- AgentService.findById a ;; rest author) (available t) =
      rest (agents t' !! a) (available t') /\
    votes t' = votes t /\
    votes_seq t' = votes_seq t /\
    (forall b, b <> a -> agents t' !! b = agents t !! b) /\
    (forall j, j <> i \/ ty <> "post" -> posts t' !! j = posts t !! j) /\
    (forall j, j <> i \/ ty = "post" -> comments t' !! j = comments t !! j).
Proof.
  unfold target_author, karma_of, target_score.
  intros Ha Hk Hs.
  destruct (decide (ty = "post")) as [Hp|Hp].
  - eexists. split.
    + erewrite bind_Ok by apply PostService_updateScore_available.
      erewrite bind_Ok by apply updateKarma_available.
      erewrite bind_Ok by apply findById_available.
      reflexivity.
    + simpl. repeat split; auto.
      * intros b Hb. now apply lookup_alter_ne.
      * intros j [Hj|Hj]; [now apply lookup_alter_ne|contradiction].
  - destruct (CommentService_updateScore_available t i scoreDelta up)
      as (f & Hf & Hrun).
    eexists. split.
    + erewrite bind_Ok by apply Hrun.
      erewrite bind_Ok by apply updateKarma_available.
      erewrite bind_Ok by apply findById_available.
      reflexivity.
    + simpl. repeat split; auto.
      * intros b Hb. now apply lookup_alter_ne.
      * intros j [Hj|Hj]; [now apply lookup_alter_ne|contradiction].
Qed.

(** One call of [vote] by an agent other than the author: the [votes]
    table it leaves, and the rows of the other tables it does not touch. *)
Lemma vote_ledger t (p : params) a (k s : Z) :
  target_author t (targetId p) (targetType p) = Some a ->
  a <> agentId p ->
  karma_of t a = Some k ->
  target_score t (targetId p) (targetType p) = Some s ->
  exists r t',
    vote p (available t) = (Ok r, available t') /\
    (votes t', votes_seq t') = ledger_after t p /\
    (forall b, b <> a -> agents t' !! b = agents t !! b) /\
    (forall j, j <> targetId p \/ targetType p <> "post" ->
               posts t' !! j = posts t !! j) /\
    (forall j, j <> targetId p \/ targetType p = "post" ->
               comments t' !! j = comments t !! j).
Proof.
  destruct p as [i ty ag value]. simpl. intros Ha Hne Hk Hs.
  destruct (write_vote_ledger t ag i ty value) as ([[act d1] d2] & Hrun1 & Hd).
  simpl in Hd. subst d2.
  set (p := {| targetId := i; targetType := ty; agentId := ag;
               value := value |}) in *.
  set (t1 := with_votes t (ledger_after t p).1 (ledger_after t p).2) in *.
  set (rest := fun author : option Agents.row =>
    ret {| success := true;
           message := if decide (act = "upvoted") then "Upvoted!"
                      else if decide (act = "downvoted") then "Downvoted!"
                      else if decide (act = "removed") then "Vote removed!"
                      else "Vote changed!";
           action := act;
           author := Agents.name <$> author |}).
  destruct (propagate_frame t1 i ty a k s d1 d1
              (bool_decide (value = VOTE_UP)) rest Ha Hk Hs)
    as (t' & Hrun2 & Hvotes & Hseq & Hag & Hpo & Hco).
  eexists _, t'. split; [|split; [|split; [|split]]].
  - unfold vote.
    erewrite bind_Ok by (apply getTarget_available; exact Ha).
    simpl. destruct (decide (a = ag)) as [Heq|_]; [contradiction|].
    erewrite bind_Ok by (apply queryOne_available; reflexivity).
    rewrite head_filter_find.
    erewrite bind_Ok by exact Hrun1.
    cbv beta iota. refine (eq_trans Hrun2 _). reflexivity.
  - rewrite Hvotes, Hseq. subst t1. simpl. now destruct (ledger_after t p).
  - exact Hag.
  - exact Hpo.
  - exact Hco.
Qed.

Lemma ledger_after_ok t (p : params) :
  ledger_ok t ->
  NoDup (Votes.key <$> (ledger_after t p).1) /\
  NoDup (Votes.id <$> (ledger_after t p).1) /\
  Forall (fun v => (Votes.id v < (ledger_after t p).2)%nat)
    (ledger_after t p).1.
Proof.
  intros (Hkeys & Hids & Hseq). unfold ledger_after.
  destruct (List.find _ (votes t)) as [e|] eqn:Hfind.
  - destruct (decide (Votes.value e = value p)); simpl.
    + split; [now apply NoDup_fmap_filter|].
      split; [now apply NoDup_fmap_filter|].
      apply Forall_forall. intros x Hx.
      apply list_elem_of_In, filter_In in Hx as [Hx _].
      rewrite Forall_forall in Hseq. apply Hseq. now apply list_elem_of_In.
    + assert (Hk : forall (f : Votes.row -> Votes.row) l,
                (forall x, Votes.key (f x) = Votes.key x) ->
                Votes.key <$> List.map f l = Votes.key <$> l).
      { intros f l Hf. induction l as [|x l IH]; simpl; [reflexivity|].
        f_equal; [apply Hf|exact IH]. }
      assert (Hi : forall (f : Votes.row -> Votes.row) l,
                (forall x, Votes.id (f x) = Votes.id x) ->
                Votes.id <$> List.map f l = Votes.id <$> l).
      { intros f l Hf. induction l as [|x l IH]; simpl; [reflexivity|].
        f_equal; [apply Hf|exact IH]. }
      split; [|split].
      * rewrite Hk; [exact Hkeys|].
        intros x. now destruct (Votes.id x =? Votes.id e)%nat.
      * rewrite Hi; [exact Hids|].
        intros x. now destruct (Votes.id x =? Votes.id e)%nat.
      * apply Forall_forall. intros x Hx.
        apply list_elem_of_In, in_map_iff in Hx as (y & <- & Hy).
        rewrite Forall_forall in Hseq.
        apply list_elem_of_In, Hseq in Hy.
        now destruct (Votes.id y =? Votes.id e)%nat.
  - simpl. rewrite !fmap_app. simpl. split; [|split].
    + apply NoDup_app. split; [exact Hkeys|]. split; [|apply NoDup_singleton].
      intros k Hk Hk'. apply list_elem_of_singleton in Hk'. subst k.
      apply list_elem_of_fmap in Hk as (x & Hx1 & Hx2).
      apply list_elem_of_In in Hx2.
      assert (Hf : is_vote_of (agentId p) (targetId p) (targetType p) x = true)
        by (apply is_vote_of_key; now rewrite <- Hx1).
      pose proof (find_None_filter _ _ Hfind) as Hnil.
      assert (Hin : In x (List.filter
                (is_vote_of (agentId p) (targetId p) (targetType p)) (votes t)))
        by (apply filter_In; auto).
      rewrite Hnil in Hin. destruct Hin.
    + apply NoDup_app. split; [exact Hids|]. split; [|apply NoDup_singleton].
      intros n Hn Hn'. apply list_elem_of_singleton in Hn'. subst n.
      apply list_elem_of_fmap in Hn as (x & Hx1 & Hx2).
      rewrite Forall_forall in Hseq. apply Hseq in Hx2. lia.
    + apply Forall_app. split.
      * rewrite Forall_forall in Hseq. apply Forall_forall.
        intros x Hx. apply Hseq in Hx. lia.
      * constructor; [simpl; lia|constructor].
Qed.

(** X12. A vote by an agent other than the author keeps the constraints of
    the [votes] table: afterwards there is still one row per triple and one
    row per primary key, and the sequence of keys is ahead of every row. *)
Theorem vote_keeps_ledger_ok t (p : params) a (k s : Z) :
  target_author t (targetId p) (targetType p) = Some a ->
  a <> agentId p ->
  karma_of t a = Some k ->
  target_score t (targetId p) (targetType p) = Some s ->
  ledger_ok t ->
  exists r t', vote p (available t) = (Ok r, available t') /\ ledger_ok t'.
Proof.
  intros Ha Hne Hk Hs Hok.
  destruct (vote_ledger t p a k s Ha Hne Hk Hs) as (r & t' & Hrun & Hl & _).
  exists r, t'. split; [exact Hrun|].
  pose proof (ledger_after_ok t p Hok) as Hafter.
  rewrite <- Hl in Hafter. exact Hafter.
Qed.

Lemma stored_vote_after_other t (p : params) ag' i' ty' :
  NoDup (Votes.id <$> votes t) ->
  (ag', i', ty') <> (agentId p, targetId p, targetType p) ->
  Votes.value <$> List.find (is_vote_of ag' i' ty') (ledger_after t p).1 =
  stored_vote t ag' i' ty'.
Proof.
  intros Hids Hne. unfold stored_vote, ledger_after.
  destruct (List.find (is_vote_of (agentId p) _ _) (votes t)) as [e|] eqn:Hfind.
  - destruct (find_In _ _ _ Hfind) as [Hin He]. apply is_vote_of_key in He.
    assert (Hother : forall x, In x (votes t) ->
              is_vote_of ag' i' ty' x = true ->
              (Votes.id x =? Votes.id e)%nat = false).
    { intros x Hx Hfx. apply Nat.eqb_neq. intros Hid.
      apply (id_unique (votes t) x e Hids Hx Hin) in Hid. subst x.
      apply is_vote_of_key in Hfx. congruence. }
    destruct (decide (Votes.value e = value p)); simpl.
    + f_equal. apply find_filter_keep. intros x Hx Hfx.
      now rewrite (Hother x Hx Hfx).
    + rewrite find_map.
      * destruct (List.find (is_vote_of ag' i' ty') (votes t)) as [x|] eqn:Hx;
          [|reflexivity].
        destruct (find_In _ _ _ Hx) as [Hxin Hfx]. simpl.
        now rewrite (Hother x Hxin Hfx).
      * intros x. unfold is_vote_of, Votes.key.
        now destruct (Votes.id x =? Votes.id e)%nat.
  - simpl. f_equal. apply find_snoc_other.
    unfold is_vote_of, Votes.key; simpl.
    apply bool_decide_eq_false_2. congruence.
Qed.

(** X11. A vote by an agent other than the author, on a table with one row
    per primary key, changes the stored vote of no other triple, the score
    of no other post or comment, and the karma of no agent but the author. *)
Theorem vote_touches_one_triple t (p : params) a (k s : Z) :
  target_author t (targetId p) (targetType p) = Some a ->
  a <> agentId p ->
  karma_of t a = Some k ->
  target_score t (targetId p) (targetType p) = Some s ->
  NoDup (Votes.id <$> votes t) ->
  exists r t',
    vote p (available t) = (Ok r, available t') /\
    (forall ag' i' ty',
       (ag', i', ty') <> (agentId p, targetId p, targetType p) ->
       stored_vote t' ag' i' ty' = stored_vote t ag' i' ty') /\
    (forall i' ty',
       ty' = "post" \/ ty' = "comment" ->
       (i', ty') <> (targetId p, targetType p) ->
       target_score t' i' ty' = target_score t i' ty') /\
    (forall b, b <> a -> karma_of t' b = karma_of t b).
Proof.
  intros Ha Hne Hk Hs Hids.
  destruct (vote_ledger t p a k s Ha Hne Hk Hs)
    as (r & t' & Hrun & Hl & Hag & Hpo & Hco).
  exists r, t'. split; [exact Hrun|]. split; [|split].
  - intros ag' i' ty' Hother.
    rewrite <- (stored_vote_after_other t p ag' i' ty' Hids Hother).
    rewrite <- Hl. reflexivity.
  - intros i' ty' Hty Hother. unfold target_score, target_author in *.
    destruct Hty as [-> | ->]; simpl.
    + rewrite Hpo; [reflexivity|].
      destruct (decide (targetType p = "post")) as [Hp|Hp]; [|now right].
      left. intros ->. apply Hother. now rewrite Hp.
    + rewrite Hco; [reflexivity|].
      destruct (decide (targetType p = "post")) as [Hp|Hp]; [now right|].
      destruct (decide (targetType p = "comment")) as [Hc|Hc]; [|discriminate].
      left. intros ->. apply Hother. now rewrite Hc.
  - intros b Hb. unfold karma_of. now rewrite Hag.
Qed.

Lemma filter_all {A} (g : A -> bool) (l : list A) :
  (forall x, In x l -> g x = true) -> List.filter g l = l.
Proof.
  induction l as [|x l IH]; simpl; intros H; [reflexivity|].
  rewrite (H x) by auto. f_equal. apply IH. intros y Hy. apply H. now right.
Qed.

Lemma map_all {A} (h : A -> A) (l : list A) :
  (forall x, In x l -> h x = x) -> List.map h l = l.
Proof.
  induction l as [|x l IH]; simpl; intros H; [reflexivity|].
  rewrite (H x) by auto. f_equal. apply IH. intros y Hy. apply H. now right.
Qed.

Lemma other_ids (l : list Votes.row) (x : Votes.row) :
  Votes.id x ∉ Votes.id <$> l ->
  forall y, In y l -> (Votes.id y =? Votes.id x)%nat = false.
Proof.
  intros Hx y Hy. apply Nat.eqb_neq. intros Heq. apply Hx.
  rewrite <- Heq. apply list_elem_of_fmap. exists y. split; [reflexivity|].
  now apply list_elem_of_In.
Qed.

(** The sum of the votes on a target after the row [e] is deleted by its
    primary key. *)
Lemma sum_after_delete i ty (l : list Votes.row) (e : Votes.row) :
  NoDup (Votes.id <$> l) -> In e l ->
  foldr Z.add 0 (Votes.value <$> List.filter (on_target i ty)
    (List.filter (fun v => negb (Votes.id v =? Votes.id e)%nat) l)) =
  foldr Z.add 0 (Votes.value <$> List.filter (on_target i ty) l)
  - (if on_target i ty e then Votes.value e else 0).
Proof.
  induction l as [|x l IH]; simpl; [tauto|].
  rewrite NoDup_cons. intros [Hx Hnd] [->|He].
  - rewrite Nat.eqb_refl. simpl.
    rewrite (filter_all (fun v => negb (Votes.id v =? Votes.id e)%nat) l).
    + destruct (on_target i ty e); rewrite ?fmap_cons, ?fmap_nil; cbn [foldr]; lia.
    + intros y Hy. now rewrite (other_ids l e Hx y Hy).
  - assert (Hne : (Votes.id x =? Votes.id e)%nat = false).
    { apply Nat.eqb_neq. intros Heq. apply Hx. rewrite Heq.
      apply list_elem_of_fmap. exists e. split; [reflexivity|].
      now apply list_elem_of_In. }
    rewrite Hne. simpl. specialize (IH Hnd He).
    destruct (on_target i ty x); rewrite ?fmap_cons, ?fmap_nil; cbn [foldr]; lia.
Qed.

(** The sum of the votes on a target after the value of the row [e] is
    set by its primary key. *)
Lemma sum_after_update i ty (l : list Votes.row) (e : Votes.row) (value : Z) :
  NoDup (Votes.id <$> l) -> In e l ->
  foldr Z.add 0 (Votes.value <$> List.filter (on_target i ty)
    (List.map (fun v =>
                 if (Votes.id v =? Votes.id e)%nat then
                   {| Votes.id := Votes.id v;
                      Votes.agent_id := Votes.agent_id v;
                      Votes.target_id := Votes.target_id v;
                      Votes.target_type := Votes.target_type v;
                      Votes.value := value |}
                 else v) l)) =
  foldr Z.add 0 (Votes.value <$> List.filter (on_target i ty) l)
  + (if on_target i ty e then value - Votes.value e else 0).
Proof.
  induction l as [|x l IH]; simpl; [tauto|].
  rewrite NoDup_cons. intros [Hx Hnd] [->|He].
  - rewrite Nat.eqb_refl.
    rewrite map_all by (intros y Hy; now rewrite (other_ids l e Hx y Hy)).
    destruct e as [eid ea ei et ev]. simpl.
    change (on_target i ty (Votes.Build_row eid ea ei et value))
      with (on_target i ty (Votes.Build_row eid ea ei et ev)).
    destruct (on_target i ty _); rewrite ?fmap_cons, ?fmap_nil; cbn [foldr Votes.value]; lia.
  - assert (Hne : (Votes.id x =? Votes.id e)%nat = false).
    { apply Nat.eqb_neq. intros Heq. apply Hx. rewrite Heq.
      apply list_elem_of_fmap. exists e. split; [reflexivity|].
      now apply list_elem_of_In. }
    rewrite Hne. specialize (IH Hnd He).
    destruct (on_target i ty x); rewrite ?fmap_cons, ?fmap_nil; cbn [foldr]; lia.
Qed.

Lemma sum_after_insert i ty (l : list Votes.row) (n : Votes.row) :
  foldr Z.add 0 (Votes.value <$> List.filter (on_target i ty) (l ++ [n])) =
  foldr Z.add 0 (Votes.value <$> List.filter (on_target i ty) l)
  + (if on_target i ty n then Votes.value n else 0).
Proof.
  induction l as [|x l IH]; simpl.
  - destruct (on_target i ty n); rewrite ?fmap_cons, ?fmap_nil; cbn [foldr]; lia.
  - destruct (on_target i ty x); rewrite ?fmap_cons, ?fmap_nil; cbn [foldr]; lia.
Qed.

(** X13. When the stored and the requested values are 1 or -1, a vote by an
    agent other than the author moves the score of the target and the karma
    of its author by exactly the change of the sum of the votes stored on
    the target. *)
Theorem vote_moves_counters_with_sum t (p : params) a (k s : Z) :
  target_author t (targetId p) (targetType p) = Some a ->
  a <> agentId p ->
  karma_of t a = Some k ->
  target_score t (targetId p) (targetType p) = Some s ->
  ledger_ok t ->
  (value p = 1 \/ value p = -1) ->
  (forall c, stored_vote t (agentId p) (targetId p) (targetType p) = Some c ->
             c = 1 \/ c = -1) ->
  exists r t',
    vote p (available t) = (Ok r, available t') /\
    target_score t' (targetId p) (targetType p) =
      Some (s + (vote_sum t' (targetId p) (targetType p)
                 - vote_sum t (targetId p) (targetType p))) /\
    karma_of t' a =
      Some (k + (vote_sum t' (targetId p) (targetType p)
                 - vote_sum t (targetId p) (targetType p))).
Proof.
  intros Ha Hne Hk Hs (Hkeys & Hids & _) Hv Hc.
  destruct (vote_available t p a k s Ha Hne Hk Hs Hkeys)
    as (r & t' & next & delta & Hrun & Hout & _ & Hs' & Hk' & _).
  destruct (vote_ledger t p a k s Ha Hne Hk Hs) as (r2 & t2 & Hrun2 & Hl & _).
  rewrite Hrun in Hrun2. injection Hrun2 as <- <-.
  exists r, t'. split; [exact Hrun|].
  enough (Hsum : vote_sum t' (targetId p) (targetType p)
                 - vote_sum t (targetId p) (targetType p) = delta)
    by (rewrite Hsum; auto).
  assert (Hvotes : votes t' = (ledger_after t p).1) by (now rewrite <- Hl).
  unfold vote_sum. rewrite Hvotes.
  unfold stored_vote in Hout, Hc. unfold ledger_after.
  destruct (List.find _ (votes t)) as [e|] eqn:Hfind; simpl in *.
  - destruct (find_In _ _ _ Hfind) as [Hin He].
    apply is_vote_of_key in He. injection He as He1 He2 He3.
    assert (Hon : on_target (targetId p) (targetType p) e = true).
    { unfold on_target. now rewrite !bool_decide_eq_true_2. }
    destruct (decide (Votes.value e = value p)) as [Heq|Hneq]; simpl.
    + injection Hout as _ _ ->.
      rewrite (sum_after_delete _ _ _ e Hids Hin), Hon. lia.
    + injection Hout as _ _ ->.
      rewrite (sum_after_update _ _ _ e _ Hids Hin), Hon.
      destruct (Hc (Votes.value e) eq_refl), Hv; lia.
  - injection Hout as _ _ ->.
    rewrite sum_after_insert. unfold on_target; simpl.
    rewrite !bool_decide_eq_true_2 by reflexivity. simpl. lia.
Qed.

End LedgerFacts.

(** ** More facts about the reply tree *)

Section AssemblyFacts.
Import CommentService.

Lemma indexed_refs (l : list comment) : fst <$> indexed l = seq 0 (length l).
Proof.
  apply list_eq. intros i. unfold indexed.
  rewrite list_lookup_fmap, list_lookup_imap.
  destruct (l !! i) as [c|] eqn:Hi; simpl.
  - symmetry. apply lookup_seq. split; [reflexivity|].
    now apply lookup_lt_Some in Hi.
  - symmetry. apply lookup_seq_ge. now apply lookup_ge_None in Hi.
Qed.

(** Every position that the map of the first pass holds is a position of
    the input. *)
Lemma commentMap_range (l : list comment) k i :
  (first_pass l).2 !! k = Some i -> (i < length l)%nat.
Proof.
  revert k i. induction l as [|c l IH] using rev_ind; intros k i.
  - unfold first_pass; simpl. now rewrite lookup_empty.
  - rewrite commentMap_snoc, length_app. simpl.
    destruct (decide (id c = k)) as [<-|Hk].
    + rewrite lookup_insert_eq. intros [= <-]. lia.
    + rewrite lookup_insert_ne by exact Hk. intros H. apply IH in H. lia.
Qed.

Lemma parent_in_range (l : list comment) (c : comment) p :
  parent_in (first_pass l).2 c = Some p -> (p < length l)%nat.
Proof.
  unfold parent_in. destruct (truthy (parent_id c)); [|discriminate].
  destruct (parent_id c) as [k|]; simpl; [|discriminate].
  apply commentMap_range.
Qed.

Lemma push_concat (ref p : nat) (objs : list node) :
  (p < length objs)%nat ->
  concat (replies <$> alter (push ref) p objs) ≡ₚ
  ref :: concat (replies <$> objs).
Proof.
  revert p. induction objs as [|n objs IH]; intros p Hp; simpl in Hp; [lia|].
  destruct p as [|p]; simpl.
  - rewrite <- app_assoc. simpl. symmetry. apply Permutation_middle.
  - rewrite (IH p) by lia. symmetry. apply Permutation_middle.
Qed.

Lemma attach_fold_perm (commentMap : gmap string nat)
    (L : list (nat * comment)) :
  forall t0,
    (forall rc p, In rc L -> parent_in commentMap rc.2 = Some p ->
                  (p < length (objects t0))%nat) ->
    length (objects (foldl (attach commentMap) t0 L)) = length (objects t0) /\
    rootComments (foldl (attach commentMap) t0 L)
      ++ concat (replies <$> objects (foldl (attach commentMap) t0 L)) ≡ₚ
    (rootComments t0 ++ concat (replies <$> objects t0)) ++ (fst <$> L).
Proof.
  induction L as [|[ref c] L IH]; intros t0 Hrange.
  - simpl. split; [reflexivity|]. now rewrite app_nil_r.
  - change (foldl (attach commentMap) t0 ((ref, c) :: L))
      with (foldl (attach commentMap) (attach commentMap t0 (ref, c)) L).
    assert (Hstep :
      length (objects (attach commentMap t0 (ref, c))) = length (objects t0) /\
      rootComments (attach commentMap t0 (ref, c))
        ++ concat (replies <$> objects (attach commentMap t0 (ref, c))) ≡ₚ
      ref :: (rootComments t0 ++ concat (replies <$> objects t0))).
    { unfold attach.
      destruct (parent_in commentMap c) as [p|] eqn:Hp; simpl.
      - split; [apply length_alter|].
        rewrite push_concat by (apply (Hrange (ref, c) p); [now left|exact Hp]).
        symmetry. apply Permutation_middle.
      - split; [reflexivity|].
        rewrite <- app_assoc. simpl. symmetry. apply Permutation_middle. }
    destruct Hstep as [Hlen Hperm].
    destruct (IH (attach commentMap t0 (ref, c))) as [Hlen' Hperm'].
    { intros rc p Hin Hp. rewrite Hlen. apply (Hrange rc p); [now right|exact Hp]. }
    split; [now rewrite Hlen'|].
    rewrite Hperm', Hperm. simpl.
    rewrite (Permutation_middle _ (fst <$> L) ref). reflexivity.
Qed.

Lemma fresh_objects_no_replies (l : list comment) :
  concat (replies <$> ((fun c => {| row := c; replies := [] |}) <$> l)) = [].
Proof. induction l as [|c l IH]; simpl; auto. Qed.

(** X14. For every input, with or without repeated ids, [buildCommentTree]
    keeps one object per comment, in input order, and places every comment
    exactly once: the roots and the replies lists together hold each
    position of the input once. *)
Theorem buildCommentTree_places_each_once (comments : list comment) :
  let t := buildCommentTree comments in
  row <$> objects t = comments /\
  rootComments t ++ concat (replies <$> objects t) ≡ₚ
    seq 0 (length comments).
Proof.
  intros t.
  pose (commentMap := (first_pass comments).2).
  pose (t0 := {| rootComments := [];
                 objects := (fun c => {| row := c; replies := [] |})
                              <$> comments |}).
  assert (Ht : t = foldl (attach commentMap) t0 (indexed comments))
    by reflexivity.
  split.
  - destruct (attach_fold commentMap (indexed comments) t0) as [_ Hobjs].
    rewrite <- Ht in Hobjs.
    apply list_eq. intros i. rewrite list_lookup_fmap, Hobjs. simpl.
    rewrite list_lookup_fmap. now destruct (comments !! i).
  - destruct (attach_fold_perm commentMap (indexed comments) t0) as [_ Hperm].
    { intros rc p _ Hp. simpl. rewrite length_fmap.
      now apply (parent_in_range comments rc.2). }
    rewrite <- Ht in Hperm. rewrite Hperm. simpl.
    rewrite indexed_refs.
    now rewrite fresh_objects_no_replies.
Qed.

Lemma strongly_sorted_lookup {A} (R : A -> A -> Prop) (l : list A) :
  StronglySorted R l ->
  forall (i j : nat) a b,
    (i < j)%nat -> l !! i = Some a -> l !! j = Some b -> R a b.
Proof.
  induction 1 as [|x l Hl IH Hx]; intros i j a b Hij Hi Hj.
  - now rewrite lookup_nil in Hi.
  - destruct j as [|j]; [lia|]. simpl in Hj.
    destruct i as [|i]; simpl in Hi.
    + injection Hi as <-.
      rewrite Forall_forall in Hx. apply Hx.
      eapply list_elem_of_lookup_2. exact Hj.
    + apply (IH i j); auto. lia.
Qed.

(** The positions that a filter keeps are in increasing order. *)
Lemma kept_refs_increasing (P : nat * comment -> bool) (l : list comment) :
  forall n : nat,
    Forall (fun x => (n <= x)%nat)
      (fst <$> List.filter P (imap (fun i c => ((n + i)%nat, c)) l)) /\
    StronglySorted lt
      (fst <$> List.filter P (imap (fun i c => ((n + i)%nat, c)) l)).
Proof.
  induction l as [|c l IH]; intros n; simpl.
  - split; constructor.
  - assert (Hshift : imap ((fun i c => ((n + i)%nat, c)) ∘ S) l =
                     imap (fun i c => ((S n + i)%nat, c)) l).
    { apply imap_ext. intros i x _. simpl. f_equal. lia. }
    rewrite Hshift. destruct (IH (S n)) as [Hge Hsorted].
    assert (Hge' : Forall (fun x => (n <= x)%nat)
              (fst <$> List.filter P (imap (fun i c => ((S n + i)%nat, c)) l))).
    { eapply Forall_impl; [exact Hge|]. intros x Hx. simpl in Hx. lia. }
    destruct (P ((n + 0)%nat, c)); simpl.
    + split.
      * constructor; [lia|exact Hge'].
      * constructor; [exact Hsorted|].
        eapply Forall_impl; [exact Hge|]. intros x Hx. simpl in Hx. lia.
    + split; [exact Hge'|exact Hsorted].
Qed.

(** X15. In the tree that [getByPost] returns, the root list and every
    replies list name rows of the query in the order of the query: of two
    siblings the one listed first stands first in the rows, so it has the
    smaller depth or, at equal depth, comes first by the key of the sort
    mode. *)
Theorem getByPost_siblings_in_order (t : tables) (postId : string)
    (sort : option string) (limit : option nat) :
  exists rows tree,
    getByPost postId sort limit (available t) = (Ok tree, available t) /\
    row <$> objects tree = rows /\
    forall L,
      (L = rootComments tree \/ exists n, n ∈ objects tree /\ L = replies n) ->
      forall (i j x y : nat) a b,
        (i < j)%nat -> L !! i = Some x -> L !! j = Some y ->
        rows !! x = Some a -> rows !! y = Some b ->
        (x < y)%nat /\
        precedes ((depth, ASC) :: orderBy (default "top" sort)) a b = true.
Proof.
  set (clause := (depth, ASC) :: orderBy (default "top" sort)).
  set (rows := take (default 100%nat limit)
                 (order_by clause (joined postId t))).
  exists rows, (buildCommentTree rows).
  split; [reflexivity|].
  split; [apply (buildCommentTree_places_each_once rows)|].
  assert (Hrows : StronglySorted (fun a b => precedes clause a b = true) rows)
    by apply take_sorted, order_by_sorted.
  pose (commentMap := (first_pass rows).2).
  pose (t0 := {| rootComments := [];
                 objects := (fun c => {| row := c; replies := [] |})
                              <$> rows |}).
  assert (Ht : buildCommentTree rows =
               foldl (attach commentMap) t0 (indexed rows)) by reflexivity.
  destruct (attach_fold commentMap (indexed rows) t0) as [Hroots Hobjs].
  rewrite <- Ht in Hroots, Hobjs. simpl in Hroots.
  assert (Hlists : forall L,
    (L = rootComments (buildCommentTree rows) \/
     exists n, n ∈ objects (buildCommentTree rows) /\ L = replies n) ->
    StronglySorted lt L).
  { intros L [->|(n & Hn & ->)].
    - rewrite Hroots. apply (kept_refs_increasing _ rows 0%nat).
    - apply list_elem_of_lookup in Hn as [p Hp].
      rewrite Hobjs in Hp. simpl in Hp. rewrite list_lookup_fmap in Hp.
      destruct (rows !! p); simpl in Hp; [|discriminate].
      injection Hp as <-. simpl.
      apply (kept_refs_increasing _ rows 0%nat). }
  intros L HL i j x y a b Hij Hi Hj Hx Hy.
  pose proof (strongly_sorted_lookup _ _ (Hlists L HL) i j x y Hij Hi Hj) as Hxy.
  split; [exact Hxy|].
  exact (strongly_sorted_lookup _ _ Hrows x y a b Hxy Hx Hy).
Qed.

End AssemblyFacts.

(** ** Facts about the creation of comments *)

Section CreateFacts.
Import CommentService.

Variable trim : string -> string.
Variable length_of : string -> Z.
Variable incrementCommentCount : string -> M unit.

Implicit Types (t : tables) (p : create_params).

(** X16. A reply to a comment of the post that is already at depth 10 or
    more is refused with the bad-request error of the depth limit, and no
    table is written. *)
Theorem create_refuses_depth_over_10 newId now p t content pid pc :
  new_content p = Some content ->
  content <> "" ->
  length_of (trim content) <> 0 ->
  length_of content <= 10000 ->
  is_Some (posts t !! new_postId p) ->
  new_parentId p = Some pid ->
  pid <> "" ->
  comments t !! pid = Some pc ->
  Comments.post_id pc = new_postId p ->
  10 <= Comments.depth pc ->
  create trim length_of incrementCommentCount newId now p (available t) =
    (Throw (BadRequestError "Maximum comment depth exceeded"), available t).
Proof.
  intros Hc Hne Htrim Hlen [post Hpost] Hparent Hpid Hpc Hsame Hdepth.
  unfold create. rewrite Hc.
  destruct content as [|a s]; [contradiction|].
  destruct (decide (length_of (trim (String a s)) = 0)); [contradiction|].
  destruct (Z.ltb_spec 10000 (length_of (String a s))); [lia|].
  erewrite bind_Ok
    by (apply queryOne_available; unfold select_post_id; now rewrite Hpost).
  simpl. rewrite Hparent. simpl.
  destruct (String.eqb_spec pid ""); [contradiction|]. simpl.
  unfold bind at 1.
  erewrite bind_Ok
    by (apply queryOne_available; unfold select_parent; rewrite Hpc; simpl;
        destruct (decide (Comments.post_id pc = new_postId p));
        [reflexivity|contradiction]).
  simpl. destruct (Z.ltb_spec 10 (Comments.depth pc + 1)); [reflexivity|lia].
Qed.

(** X17. A reply whose parent id names no comment, or a comment of another
    post, is refused with the not-found error of the parent, and no table
    is written. *)
Theorem create_refuses_foreign_parent newId now p t content pid :
  new_content p = Some content ->
  content <> "" ->
  length_of (trim content) <> 0 ->
  length_of content <= 10000 ->
  is_Some (posts t !! new_postId p) ->
  new_parentId p = Some pid ->
  pid <> "" ->
  (forall pc, comments t !! pid = Some pc ->
              Comments.post_id pc <> new_postId p) ->
  create trim length_of incrementCommentCount newId now p (available t) =
    (Throw (NotFoundError "Parent comment"), available t).
Proof.
  intros Hc Hne Htrim Hlen [post Hpost] Hparent Hpid Hforeign.
  unfold create. rewrite Hc.
  destruct content as [|a s]; [contradiction|].
  destruct (decide (length_of (trim (String a s)) = 0)); [contradiction|].
  destruct (Z.ltb_spec 10000 (length_of (String a s))); [lia|].
  erewrite bind_Ok
    by (apply queryOne_available; unfold select_post_id; now rewrite Hpost).
  simpl. rewrite Hparent. simpl.
  destruct (String.eqb_spec pid ""); [contradiction|]. simpl.
  unfold bind at 1.
  erewrite bind_Ok by (apply queryOne_available; reflexivity).
  destruct (comments t !! pid) as [pc|] eqn:Hpc; simpl; [|reflexivity].
  destruct (decide (Comments.post_id pc = new_postId p)) as [Heq|_];
    [|reflexivity].
  now destruct (Hforeign pc eq_refl).
Qed.

(** The threading of a store after one comment is stored under a key that
    was free. *)
Lemma threaded_insert t (newId : string) (c : Comments.row) t' :
  threaded t ->
  comments t !! newId = None ->
  comments t' = <[newId := c]> (comments t) ->
  0 <= Comments.depth c <= 10 ->
  match Comments.parent_id c with
  | None => Comments.depth c = 0
  | Some parent =>
      exists pc, comments t !! parent = Some pc /\
                 Comments.post_id pc = Comments.post_id c /\
                 Comments.depth c = Comments.depth pc + 1
  end ->
  threaded t'.
Proof.
  intros Ht Hfree Hcomments Hdepth Hparent cid c0. rewrite Hcomments.
  assert (Hkeep : forall parent pc,
            comments t !! parent = Some pc ->
            <[newId := c]> (comments t) !! parent = Some pc).
  { intros parent pc Hpc. rewrite lookup_insert_ne; [exact Hpc|].
    intros <-. congruence. }
  destruct (decide (newId = cid)) as [<-|Hcid].
  - rewrite lookup_insert_eq. intros [= <-]. split; [exact Hdepth|].
    destruct (Comments.parent_id c) as [parent|]; [|exact Hparent].
    destruct Hparent as (pc & Hpc & Hsame & Hd).
    exists pc. auto.
  - rewrite lookup_insert_ne by exact Hcid. intros Hc0.
    destruct (Ht cid c0 Hc0) as [Hd Hp]. split; [exact Hd|].
    destruct (Comments.parent_id c0) as [parent|]; [|exact Hp].
    destruct Hp as (pc & Hpc & Hsame & Hd').
    exists pc. auto.
Qed.

(** X18. When [create] returns on a threaded store, the store is threaded
    afterwards and holds the new comment under the new key, with the
    requested post and parent and the returned depth: 0 without a parent,
    else one more than the depth of the parent, and at most 10.  The
    counter update of the post is only asked not to touch the comments, and
    a parent id that is set is not the empty string. *)
Theorem create_keeps_threaded newId now p t r w' :
  (forall postId w,
     comments (db (incrementCommentCount postId w).2) = comments (db w)) ->
  threaded t ->
  new_parentId p <> Some "" ->
  create trim length_of incrementCommentCount newId now p (available t) =
    (Ok r, w') ->
  threaded (db w') /\
  comments t !! newId = None /\
  exists c,
    comments (db w') !! newId = Some c /\
    Comments.post_id c = new_postId p /\
    Comments.parent_id c = new_parentId p /\
    created_depth <$> r = Some (Comments.depth c) /\
    0 <= Comments.depth c <= 10.
Proof.
  intros Hframe Ht Hparent. unfold create.
  destruct (new_content p) as [[|a s]|]; try discriminate.
  destruct (decide (length_of (trim (String a s)) = 0)); [discriminate|].
  destruct (10000 <? length_of (String a s)); [discriminate|].
  erewrite bind_Ok by (apply queryOne_available; reflexivity).
  destruct (posts t !! new_postId p) as [post|] eqn:Hpost; simpl;
    [|discriminate].
  assert (Hdepth : (exists depth,
    (if truthy (new_parentId p) then
       parent <- queryOne (select_parent (default "" (new_parentId p))
                             (new_postId p)) ;;
       match parent with
       | None => throw (NotFoundError "Parent comment")
       | Some parent =>
           if 10 <? parent.2 + 1 then
             throw (BadRequestError "Maximum comment depth exceeded")
           else ret (parent.2 + 1)
       end
     else ret 0) (available t) = (Ok depth, available t) /\
    0 <= depth <= 10 /\
    match new_parentId p with
    | None => depth = 0
    | Some parent =>
        exists pc, comments t !! parent = Some pc /\
                   Comments.post_id pc = new_postId p /\
                   depth = Comments.depth pc + 1
    end) \/
    exists e,
    (if truthy (new_parentId p) then
       parent <- queryOne (select_parent (default "" (new_parentId p))
                             (new_postId p)) ;;
       match parent with
       | None => throw (NotFoundError "Parent comment")
       | Some parent =>
           if 10 <? parent.2 + 1 then
             throw (BadRequestError "Maximum comment depth exceeded")
           else ret (parent.2 + 1)
       end
     else ret 0) (available t) = (Throw e, available t)).
  { destruct (new_parentId p) as [pid|] eqn:Hpid; simpl.
    - destruct (String.eqb_spec pid ""); [congruence|]. simpl.
      erewrite bind_Ok by (apply queryOne_available; reflexivity).
      destruct (comments t !! pid) as [pc|] eqn:Hpc; simpl; [|eauto].
      destruct (decide (Comments.post_id pc = new_postId p)); simpl; [|eauto].
      destruct (Z.ltb_spec 10 (Comments.depth pc + 1)); [eauto|].
      left. exists (Comments.depth pc + 1). split; [reflexivity|].
      pose proof (Ht pid pc Hpc) as [Hd _].
      split; [lia|]. exists pc. auto.
    - left. exists 0. split; [reflexivity|]. split; [lia|reflexivity]. }
  destruct Hdepth as [(depth & Hrun & Hbound & Hlink)|[e Hrun]].
  2:{ rewrite (bind_Throw_run _ _ _ _ _ Hrun). discriminate. }
  erewrite bind_Ok by exact Hrun.
  unfold queryOne, Database.binding; simpl.
  unfold Database.queryOne at 1, Database.query, bind at 1 2, insert_comment;
    simpl.
  destruct (bool_decide (comments t !! newId = None)) eqn:Hfree; simpl;
    [|discriminate].
  apply bool_decide_eq_true in Hfree.
  rewrite Hpost, (bool_decide_eq_true_2 (is_Some (Some post))) by eauto.
  simpl.
  destruct (bool_decide (is_Some (agents t !! new_authorId p))); simpl;
    [|discriminate].
  destruct (match new_parentId p with
            | Some parent => bool_decide (is_Some (comments t !! parent))
            | None => true
            end); simpl; [|discriminate].
  unfold bind, ret.
  match goal with
  | |- context [incrementCommentCount ?q ?w] =>
      pose proof (Hframe q w) as Hkept;
      destruct (incrementCommentCount q w) as [[u|e] w2]
  end; simpl in *; [|discriminate].
  intros [= <- <-].
  split; [|split; [exact Hfree|]].
  - eapply threaded_insert; [exact Ht|exact Hfree|exact Hkept| |]; simpl.
    + exact Hbound.
    + destruct (new_parentId p) as [pid|]; [|exact Hlink].
      destruct Hlink as (pc & Hpc & Hsame & Hd). exists pc. auto.
  - eexists. rewrite Hkept, lookup_insert_eq. split; [reflexivity|].
    simpl. auto.
Qed.

End CreateFacts.

(** ** Facts about the authentication utilities *)

Section AuthFacts.
Import Auth.

Lemma prefix_append (a b : string) : String.prefix a (String.append a b) = true.
Proof.
  induction a as [|c a IH]; simpl; [now destruct b|].
  destruct (Ascii.ascii_dec c c); [exact IH|contradiction].
Qed.

Lemma prefix_slice (a s : string) :
  String.prefix a s = true ->
  s = String.append a (slice (String.length a) s).
Proof.
  revert s. induction a as [|c a IH]; intros s; [reflexivity|].
  destruct s as [|d s]; simpl; [discriminate|].
  destruct (Ascii.ascii_dec c d) as [<-|]; [|discriminate].
  intros H.
  change (String c s =
          String c (String.append a (slice (String.length a) s))).
  now rewrite <- (IH s H).
Qed.

Lemma slice_append (a b : string) :
  slice (String.length a) (String.append a b) = b.
Proof. induction a as [|c a IH]; simpl; [reflexivity|exact IH]. Qed.

Lemma length_append (a b : string) :
  String.length (String.append a b) = (String.length a + String.length b)%nat.
Proof. induction a as [|c a IH]; simpl; [reflexivity|now rewrite IH]. Qed.

Lemma hex_digit_is_hex (b0 b1 b2 b3 : bool) :
  is_hex (hex_digit b0 b1 b2 b3) = true.
Proof. destruct b0, b1, b2, b3; reflexivity. Qed.

Lemma hex_length (buffer : list Ascii.ascii) :
  String.length (hex buffer) = (2 * length buffer)%nat.
Proof.
  induction buffer as [|[b0 b1 b2 b3 b4 b5 b6 b7] rest IH]; simpl;
    [reflexivity|]. rewrite IH. lia.
Qed.

Lemma hex_all_hex (buffer : list Ascii.ascii) :
  all_chars is_hex (hex buffer) = true.
Proof.
  induction buffer as [|[b0 b1 b2 b3 b4 b5 b6 b7] rest IH]; simpl;
    [reflexivity|].
  now rewrite !hex_digit_is_hex, IH.
Qed.

Lemma validateApiKey_accepts (tokenPrefix body : string) :
  String.length body = 64%nat ->
  all_chars is_hex body = true ->
  validateApiKey tokenPrefix (Some (String.append tokenPrefix body)) = true.
Proof.
  intros Hlen Hhex. unfold validateApiKey.
  destruct (String.append tokenPrefix body) as [|c s] eqn:Htok.
  { apply (f_equal String.length) in Htok.
    rewrite length_append, Hlen in Htok. simpl in Htok. lia. }
  rewrite <- Htok, prefix_append, length_append, Hlen. simpl negb.
  rewrite Nat.eqb_refl. simpl negb. cbv iota.
  rewrite slice_append. unfold hex_string.
  destruct body; [discriminate|exact Hhex].
Qed.

(** X19. [validateApiKey] accepts exactly the tokens made of the prefix
    followed by 64 characters that are hexadecimal digits, in either
    case. *)
Theorem validateApiKey_exactly (tokenPrefix : string) (token : option string) :
  validateApiKey tokenPrefix token = true <->
  exists body,
    token = Some (String.append tokenPrefix body) /\
    String.length body = 64%nat /\
    all_chars is_hex body = true.
Proof.
  split.
  - unfold validateApiKey. destruct token as [tok|]; [|discriminate].
    destruct tok as [|c s] eqn:Htok; [discriminate|]. rewrite <- Htok.
    destruct (String.prefix tokenPrefix tok) eqn:Hp; [|discriminate].
    simpl negb. cbv iota.
    destruct (Nat.eqb_spec (String.length tok)
                (String.length tokenPrefix + 64)) as [Hl|];
      [|discriminate].
    simpl negb. cbv iota. intros Hhex.
    exists (slice (String.length tokenPrefix) tok).
    pose proof (prefix_slice _ _ Hp) as Heq.
    split; [now f_equal|]. split.
    + apply (f_equal String.length) in Heq.
      rewrite length_append in Heq. lia.
    + unfold hex_string in Hhex.
      now destruct (slice (String.length tokenPrefix) tok).
  - intros (body & -> & Hlen & Hhex). now apply validateApiKey_accepts.
Qed.

(** X20. Every key that [generateApiKey] makes from 32 random bytes is
    accepted by [validateApiKey], and is 64 characters longer than the
    prefix. *)
Theorem generated_key_validates (tokenPrefix : string)
    (random : list Ascii.ascii) :
  length random = TOKEN_LENGTH ->
  validateApiKey tokenPrefix (Some (generateApiKey tokenPrefix random)) = true /\
  String.length (generateApiKey tokenPrefix random) =
    (String.length tokenPrefix + 64)%nat.
Proof.
  intros Hlen. unfold generateApiKey, TOKEN_LENGTH in *. split.
  - apply validateApiKey_accepts; [|apply hex_all_hex].
    rewrite hex_length, Hlen. reflexivity.
  - rewrite length_append, hex_length, Hlen. reflexivity.
Qed.

Lemma is_space_char (c : Ascii.ascii) :
  is_space c = true -> String c "" = " ".
Proof.
  destruct c as [[] [] [] [] [] [] [] []]; try discriminate. reflexivity.
Qed.

Lemma is_space_lower (c : Ascii.ascii) :
  is_space c = true -> is_space (lower c) = true.
Proof.
  destruct c as [[] [] [] [] [] [] [] []]; try discriminate. reflexivity.
Qed.

Lemma no_space_lower (s : string) :
  all_chars (fun c => negb (is_space c)) (toLowerCase s) = true ->
  all_chars (fun c => negb (is_space c)) s = true.
Proof.
  induction s as [|c s IH]; simpl; [reflexivity|].
  intros H. apply andb_prop in H as [Hc Hs].
  rewrite (IH Hs), andb_true_r.
  destruct (is_space c) eqn:Hsp; [|reflexivity].
  now rewrite (is_space_lower c Hsp) in Hc.
Qed.

Lemma split_cons (c : Ascii.ascii) (s : string) :
  is_space c = false ->
  exists part parts, split s = part :: parts /\
                     split (String c s) = String c part :: parts.
Proof.
  intros Hc. simpl. rewrite Hc.
  destruct (split s) as [|part parts] eqn:Hs.
  - destruct s as [|d s]; simpl in Hs; [discriminate|].
    destruct (is_space d); [discriminate|].
    destruct (split s); discriminate.
  - eauto.
Qed.

Lemma split_without_space (s : string) :
  all_chars (fun c => negb (is_space c)) s = true -> split s = [s].
Proof.
  induction s as [|c s IH]; simpl; [reflexivity|].
  intros H. apply andb_prop in H as [Hc Hs].
  apply negb_true_iff in Hc. rewrite Hc, (IH Hs). reflexivity.
Qed.

Lemma split_at_space (a b : string) :
  all_chars (fun c => negb (is_space c)) a = true ->
  split (String.append a (String.append " " b)) = a :: split b.
Proof.
  induction a as [|c a IH]; intros H.
  - reflexivity.
  - simpl in H. apply andb_prop in H as [Hc Ha].
    apply negb_true_iff in Hc.
    change (split (String c (String.append a (String.append " " b)))
            = String c a :: split b).
    simpl. now rewrite Hc, (IH Ha).
Qed.

Lemma split_one (s b : string) :
  split s = [b] ->
  s = b /\ all_chars (fun c => negb (is_space c)) b = true.
Proof.
  revert b. induction s as [|c s IH]; intros b; simpl.
  - now intros [= <-].
  - destruct (is_space c) eqn:Hc.
    + intros [= _ Hs]. destruct s as [|d s]; simpl in Hs; [discriminate|].
      destruct (is_space d); [discriminate|].
      destruct (split s); discriminate.
    + destruct (split s) as [|part parts] eqn:Hs.
      * intros [= <-]. destruct s as [|d s]; simpl in Hs; [discriminate|].
        destruct (is_space d); [discriminate|].
        destruct (split s); discriminate.
      * intros [= <- ->]. destruct (IH part eq_refl) as [-> Hpart].
        simpl. now rewrite Hc, Hpart.
Qed.

Lemma split_two (s a b : string) :
  split s = [a; b] ->
  s = String.append a (String.append " " b) /\
  all_chars (fun c => negb (is_space c)) a = true /\
  all_chars (fun c => negb (is_space c)) b = true.
Proof.
  revert a. induction s as [|c s IH]; intros a; simpl; [discriminate|].
  destruct (is_space c) eqn:Hc.
  - intros [= <- Hs]. destruct (split_one s b Hs) as [-> Hb].
    pose proof (is_space_char c Hc) as Hsp. injection Hsp as ->.
    split; [reflexivity|auto].
  - destruct (split s) as [|part parts] eqn:Hs; [discriminate|].
    intros [= <- ->]. destruct (IH part eq_refl) as (-> & Hpart & Hb).
    split; [reflexivity|]. simpl. now rewrite Hc, Hpart, Hb.
Qed.

(** X21. [extractToken] returns a token exactly for the headers made of a
    scheme that is "bearer" in any mix of cases, one space, and a token
    without a space, and the token it returns is that one; the token may be
    empty. *)
Theorem extractToken_exactly (authHeader : option string) (token : string) :
  extractToken authHeader = Some token <->
  exists scheme,
    authHeader = Some (String.append scheme (String.append " " token)) /\
    toLowerCase scheme = "bearer" /\
    all_chars (fun c => negb (is_space c)) token = true.
Proof.
  split.
  - unfold extractToken. destruct authHeader as [h|]; [|discriminate].
    destruct h as [|c s] eqn:Hh; [discriminate|]. rewrite <- Hh.
    destruct (split h) as [|scheme [|tok [|x parts]]] eqn:Hs; try discriminate.
    destruct (String.eqb_spec (toLowerCase scheme) "bearer") as [Hb|];
      [|discriminate].
    simpl. intros [= <-].
    destruct (split_two h scheme tok Hs) as (-> & _ & Htok).
    exists scheme. auto.
  - intros (scheme & -> & Hb & Htok).
    assert (Hscheme : all_chars (fun c => negb (is_space c)) scheme = true)
      by (apply no_space_lower; now rewrite Hb).
    unfold extractToken.
    rewrite (split_at_space scheme token Hscheme),
      (split_without_space token Htok), Hb.
    destruct scheme as [|c s]; [discriminate|]. reflexivity.
Qed.

End AuthFacts.

(** ** Facts about the authentication middleware *)

Section AuthMiddlewareFacts.
Import AuthMiddleware.

Variable tokenPrefix : string.
Variable findByApiKey : string -> M (option agent).

(** X22. [requireAuth] calls [next()] without an error only for a header
    whose token has the format of an API key and is resolved to an agent by
    [findByApiKey]; it then attaches that agent and that token, and
    [requireClaimed] lets the request pass exactly when the agent is
    claimed. *)
Theorem requireAuth_passes_only_with_agent
    (authorization : option string) (req req' : request) (w w' : world) :
  requireAuth tokenPrefix findByApiKey authorization req w = (req', None, w') ->
  exists token a,
    Auth.extractToken authorization = Some token /\
    Auth.validateApiKey tokenPrefix (Some token) = true /\
    findByApiKey token w = (Ok (Some a), w') /\
    req' = {| req_agent := Some a; req_token := Some token |} /\
    (requireClaimed req' = None <-> is_claimed a = true).
Proof.
  unfold requireAuth.
  destruct (Auth.extractToken authorization) as [[|c s]|]; try discriminate.
  destruct (Auth.validateApiKey tokenPrefix (Some (String c s))) eqn:Hv;
    simpl; [|discriminate].
  destruct (findByApiKey (String c s) w) as [[[a|]|e] w1] eqn:Hf;
    try discriminate.
  intros [= <- <-]. exists (String c s), a.
  repeat (split; [reflexivity || assumption|]).
  unfold requireClaimed; simpl.
  destruct (is_claimed a); simpl; split; auto; discriminate.
Qed.

(** X23. [optionalAuth] never hands an error to [next], whatever the
    header and even when [findByApiKey] throws; it attaches an agent only
    when the token has the format of an API key and [findByApiKey] resolves
    it to that agent, and otherwise leaves both the agent and the token
    [null]. *)
Theorem optionalAuth_never_fails
    (authorization : option string) (req : request) (w : world) :
  let out := optionalAuth tokenPrefix findByApiKey authorization req w in
  out.1.2 = None /\
  ((exists token a,
      Auth.extractToken authorization = Some token /\
      Auth.validateApiKey tokenPrefix (Some token) = true /\
      findByApiKey token w = (Ok (Some a), out.2) /\
      out.1.1 = {| req_agent := Some a; req_token := Some token |}) \/
   out.1.1 = {| req_agent := None; req_token := None |}).
Proof.
  unfold optionalAuth.
  destruct (Auth.extractToken authorization) as [[|c s]|];
    [cbn; auto| |cbn; auto].
  destruct (Auth.validateApiKey tokenPrefix (Some (String c s))) eqn:Hv;
    cbn [negb]; [|cbn; auto].
  destruct (findByApiKey (String c s) w) as [[[a|]|e] w1] eqn:Hf;
    cbn [fst snd]; auto.
  split; [reflexivity|]. left. exists (String c s), a. auto.
Qed.

End AuthMiddlewareFacts.

(** ** The added facts at concrete inputs *)

Section MoreInstances.

(** A check of the request counter of alice, then one of her post
    counter. *)
Lemma checkLimit_other_key_requests_and_posts :
  let lim := {| RateLimit.max := 2; RateLimit.window := 60 |} in
  let lim' := {| RateLimit.max := 1; RateLimit.window := 1800 |} in
  (RateLimit.checkLimit 0 "rl:requests:alice" lim ∅).2 !! "rl:posts:alice"
    = (∅ : gmap string (list RateLimit.entry)) !! "rl:posts:alice" /\
  (RateLimit.checkLimit 1000 "rl:posts:alice" lim'
     (RateLimit.checkLimit 0 "rl:requests:alice" lim ∅).2).1 =
  (RateLimit.checkLimit 1000 "rl:posts:alice" lim' ∅).1.
Proof.
  intros lim lim'.
  apply (checkLimit_other_key 0 "rl:requests:alice" lim ∅
           1000 "rl:posts:alice" lim').
  discriminate.
Defined.

(** The first check against 2 per minute. *)
Lemma checkLimit_admitted_history_first_check :
  let lim := {| RateLimit.max := 2; RateLimit.window := 60 |} in
  let out := RateLimit.checkLimit 5000 "rl:requests:alice" lim ∅ in
  let h := default [] (out.2 !! "rl:requests:alice") in
  last h = Some {| RateLimit.timestamp := 5000 |} /\
  Z.of_nat (length h) + RateLimit.remaining out.1 = 2 /\
  0 <= RateLimit.remaining out.1 /\
  Forall (fun e => 5000 - 60 * 1000 <= RateLimit.timestamp e) h.
Proof.
  intros lim out h.
  apply (checkLimit_admitted_history 5000 "rl:requests:alice" lim ∅).
  - simpl. lia.
  - reflexivity.
Defined.

(** One post at 0 s against 1 per 30 minutes: denied at 1 s, admitted
    again one second after the half hour. *)
Lemma checkLimit_admits_after_reset_half_an_hour_later :
  let lim := {| RateLimit.max := 1; RateLimit.window := 1800 |} in
  let st : gmap string (list RateLimit.entry) :=
    <["rl:posts:alice" := [{| RateLimit.timestamp := 0 |}]]> ∅ in
  RateLimit.allowed (RateLimit.checkLimit 1000 "rl:posts:alice" lim st).1
    = false /\
  RateLimit.allowed (RateLimit.checkLimit 1801000 "rl:posts:alice" lim st).1
    = true.
Proof.
  intros lim st. split; [reflexivity|].
  apply (checkLimit_admits_after_reset 1000 "rl:posts:alice" lim st 1801000).
  - simpl. lia.
  - apply Z.leb_le. reflexivity.
  - reflexivity.
  - apply Z.ltb_lt. reflexivity.
Defined.

(** A sweep at 1 s before a check at 2 s against 2 per minute. *)
Lemma cleanup_keeps_decisions_of_a_minute_window :
  let lim := {| RateLimit.max := 2; RateLimit.window := 60 |} in
  let st : gmap string (list RateLimit.entry) :=
    <["rl:requests:alice" := [{| RateLimit.timestamp := 0 |}]]> ∅ in
  (RateLimit.checkLimit 2000 "rl:requests:alice" lim
     (RateLimit.cleanup 1000 st)).1 =
  (RateLimit.checkLimit 2000 "rl:requests:alice" lim st).1.
Proof.
  intros lim st.
  apply (cleanup_keeps_decisions 1000 2000 "rl:requests:alice" lim st).
  - simpl. lia.
  - lia.
Defined.

(** Two sweeps, five minutes apart. *)
Lemma cleanup_leaves_recent_histories_five_minutes_apart :
  let st : gmap string (list RateLimit.entry) :=
    <["rl:requests:alice" := [{| RateLimit.timestamp := 0 |};
                              {| RateLimit.timestamp := 3700000 |}]]> ∅ in
  RateLimit.cleanup 4000000 (RateLimit.cleanup 3700000 st) =
  RateLimit.cleanup 4000000 st.
Proof.
  intros st.
  destruct (cleanup_leaves_recent_histories 3700000 4000000 st) as [_ Hagain].
  - lia.
  - exact Hagain.
Defined.

(** Two requests with the same token, for the post counter. *)
Lemma getKey_separates_on_two_requests :
  let req1 := {| RateLimit.token := Some "t1"; RateLimit.ip := Some "10.0.0.1" |} in
  let req2 := {| RateLimit.token := Some "t1"; RateLimit.ip := None |} in
  "posts" = "posts" /\
  RateLimit.or_else (RateLimit.token req1)
    (RateLimit.or_else (RateLimit.ip req1) "anonymous") =
  RateLimit.or_else (RateLimit.token req2)
    (RateLimit.or_else (RateLimit.ip req2) "anonymous").
Proof.
  intros req1 req2.
  apply (getKey_separates req1 req2 "posts" "posts").
  - cbv. intuition discriminate.
  - cbv. intuition discriminate.
  - reflexivity.
Defined.

(** A second post one second after the first, against 1 per 30 minutes. *)
Lemma rateLimit_rejection_of_a_second_post :
  let rateLimits : gmap string RateLimit.limit_config :=
    <["posts" := {| RateLimit.max := 1; RateLimit.window := 1800 |}]> ∅ in
  let opts :=
    {| RateLimit.skip := None; RateLimit.keyGenerator := None;
       RateLimit.message := Some "You can only post once every 30 minutes" |} in
  let req := {| RateLimit.token := Some "t1"; RateLimit.ip := None |} in
  let st : gmap string (list RateLimit.entry) :=
    <["rl:posts:t1" := [{| RateLimit.timestamp := 0 |}]]> ∅ in
  exists mw,
    RateLimit.rateLimit rateLimits (Some "posts") opts = Some mw /\
    (mw 1000 req ∅ st).2 = st /\
    exists retry,
      RateLimit.next_error (mw 1000 req ∅ st).1 =
        Some (RateLimit.RateLimitError
                "You can only post once every 30 minutes" retry) /\
      RateLimit.res_headers (mw 1000 req ∅ st).1 !! "Retry-After"
        = Some retry.
Proof.
  intros rateLimits opts req st.
  eexists. split; [reflexivity|].
  match goal with
  | |- (?mw 1000 req ∅ st).2 = _ /\ _ => set (out := mw 1000 req ∅ st)
  end.
  destruct (rateLimit_rejection rateLimits (Some "posts") opts _
              1000 req ∅ st out.1 out.2 _
              eq_refl (surjective_pairing out) eq_refl)
    as (Hst & _ & lim & retry & _ & He & _ & Hh & _).
  split; [exact Hst|]. exists retry. split; [|exact Hh].
  refine (eq_trans _ (f_equal Some He)). reflexivity.
Defined.

(** Three checks at 0 s, 1 s and 2 s against 2 per minute: the window
    that ends at the third check. *)
Lemma checkLimit_at_most_max_per_window_at_2_per_minute :
  let lim := {| RateLimit.max := 2; RateLimit.window := 60 |} in
  Z.of_nat (length (List.filter (fun x => 2000 - 60 * 1000 <=? x)
    (RateLimit.admitted (take 3 [0; 1000; 2000])
       (RateLimit.run_checks "rl:requests:alice" lim [0; 1000; 2000] ∅).1)))
  <= 2.
Proof.
  intros lim.
  apply (checkLimit_at_most_max_per_window "rl:requests:alice" lim
           [0; 1000; 2000] ∅).
  - simpl. lia.
  - simpl. lia.
  - reflexivity.
  - intros i j ti tj Hij Hi Hj.
    destruct i as [|[|[|i]]], j as [|[|[|j]]]; simpl in Hi, Hj;
      try discriminate; try lia;
      injection Hi as <-; injection Hj as <-; simpl; lia.
  - reflexivity.
Defined.

Lemma sample_ledger_ok : VoteService.ledger_ok Sample.store.
Proof. split; [constructor|]. split; constructor. Qed.

(** Alice upvotes the post p1 of bob and reads her vote. *)
Lemma getVote_after_vote_on_sample :
  let p := VoteService.Build_params "p1" "post" "alice" 1 in
  exists r t',
    VoteService.vote p (available Sample.store) = (Ok r, available t') /\
    VoteService.getVote "alice" "p1" "post" (available t') =
      (Ok (if decide (VoteService.action r = "removed") then None
           else Some 1),
       available t').
Proof.
  intros p.
  apply (getVote_after_vote Sample.store p "bob" 10 5).
  - reflexivity.
  - discriminate.
  - reflexivity.
  - reflexivity.
  - constructor.
  - discriminate.
Defined.

(** Alice votes on a post that does not exist. *)
Lemma vote_without_target_on_sample :
  let p := VoteService.Build_params "p9" "post" "alice" 1 in
  exists w',
    VoteService.vote p (available Sample.store) =
      (Throw (NotFoundError "Post"), w') /\
    db w' = Sample.store.
Proof.
  intros p.
  apply (vote_without_target (available Sample.store) p).
  - reflexivity.
  - discriminate.
Defined.

(** Alice downvotes the comment c2 of carol. *)
Lemma vote_touches_one_triple_on_sample :
  let p := VoteService.Build_params "c2" "comment" "alice" (-1) in
  exists r t',
    VoteService.vote p (available Sample.store) = (Ok r, available t') /\
    (forall ag' i' ty',
       (ag', i', ty') <> ("alice", "c2", "comment") ->
       VoteService.stored_vote t' ag' i' ty' =
       VoteService.stored_vote Sample.store ag' i' ty') /\
    (forall i' ty',
       ty' = "post" \/ ty' = "comment" ->
       (i', ty') <> ("c2", "comment") ->
       VoteService.target_score t' i' ty' =
       VoteService.target_score Sample.store i' ty') /\
    (forall b, b <> "carol" ->
       VoteService.karma_of t' b = VoteService.karma_of Sample.store b).
Proof.
  intros p.
  apply (vote_touches_one_triple Sample.store p "carol" 3 7).
  - reflexivity.
  - discriminate.
  - reflexivity.
  - reflexivity.
  - constructor.
Defined.

(** Carol upvotes the post p1 of bob. *)
Lemma vote_keeps_ledger_ok_on_sample :
  let p := VoteService.Build_params "p1" "post" "carol" 1 in
  exists r t',
    VoteService.vote p (available Sample.store) = (Ok r, available t') /\
    VoteService.ledger_ok t'.
Proof.
  intros p.
  apply (vote_keeps_ledger_ok Sample.store p "bob" 10 5).
  - reflexivity.
  - discriminate.
  - reflexivity.
  - reflexivity.
  - exact sample_ledger_ok.
Defined.

(** Alice downvotes the post p1 of bob. *)
Lemma vote_moves_counters_with_sum_on_sample :
  let p := VoteService.Build_params "p1" "post" "alice" (-1) in
  exists r t',
    VoteService.vote p (available Sample.store) = (Ok r, available t') /\
    VoteService.target_score t' "p1" "post" =
      Some (5 + (VoteService.vote_sum t' "p1" "post"
                 - VoteService.vote_sum Sample.store "p1" "post")) /\
    VoteService.karma_of t' "bob" =
      Some (10 + (VoteService.vote_sum t' "p1" "post"
                  - VoteService.vote_sum Sample.store "p1" "post")).
Proof.
  intros p.
  apply (vote_moves_counters_with_sum Sample.store p "bob" 10 5).
  - reflexivity.
  - discriminate.
  - reflexivity.
  - reflexivity.
  - exact sample_ledger_ok.
  - right. reflexivity.
  - intros c Hc. discriminate Hc.
Defined.

(** Alice replies to the comment at depth 10. *)
Lemma create_refuses_depth_over_10_on_sample :
  let p := {| CommentService.new_postId := "p1";
              CommentService.new_authorId := "alice";
              CommentService.new_content := Some "hi";
              CommentService.new_parentId := Some "c10" |} in
  CommentService.create (fun s => s) MoreSamples.sample_length (fun _ => ret tt)
    "c11" 400 p (available MoreSamples.sample_deep) =
  (Throw (BadRequestError "Maximum comment depth exceeded"),
   available MoreSamples.sample_deep).
Proof.
  intros p.
  apply (create_refuses_depth_over_10 (fun s => s) MoreSamples.sample_length
           (fun _ => ret tt) "c11" 400 p MoreSamples.sample_deep "hi" "c10"
           (Sample.comment_row "carol" None 0 10 300)).
  - reflexivity.
  - discriminate.
  - discriminate.
  - apply Z.leb_le. reflexivity.
  - eexists. reflexivity.
  - reflexivity.
  - discriminate.
  - reflexivity.
  - reflexivity.
  - simpl. lia.
Defined.

(** Alice replies to a comment that does not exist. *)
Lemma create_refuses_foreign_parent_on_sample :
  let p := {| CommentService.new_postId := "p1";
              CommentService.new_authorId := "alice";
              CommentService.new_content := Some "hi";
              CommentService.new_parentId := Some "c9" |} in
  CommentService.create (fun s => s) MoreSamples.sample_length (fun _ => ret tt)
    "c3" 400 p (available Sample.store) =
  (Throw (NotFoundError "Parent comment"), available Sample.store).
Proof.
  intros p.
  apply (create_refuses_foreign_parent (fun s => s) MoreSamples.sample_length
           (fun _ => ret tt) "c3" 400 p Sample.store "hi" "c9").
  - reflexivity.
  - discriminate.
  - discriminate.
  - apply Z.leb_le. reflexivity.
  - eexists. reflexivity.
  - reflexivity.
  - discriminate.
  - intros pc Hpc. discriminate Hpc.
Defined.

Lemma sample_threaded : CommentService.threaded Sample.store.
Proof.
  intros cid c. unfold Sample.store; simpl.
  destruct (decide (cid = "c1")) as [->|N1].
  - rewrite lookup_insert_eq. intros [= <-]. simpl. split; [lia|reflexivity].
  - rewrite lookup_insert_ne by congruence.
    destruct (decide (cid = "c2")) as [->|N2].
    + rewrite lookup_insert_eq. intros [= <-]. simpl. split; [lia|].
      eexists. split; [reflexivity|]. split; reflexivity.
    + rewrite lookup_insert_ne by congruence. rewrite lookup_empty.
      discriminate.
Qed.

(** Alice replies to the reply c2 of carol. *)
Lemma create_keeps_threaded_on_sample :
  let p := {| CommentService.new_postId := "p1";
              CommentService.new_authorId := "alice";
              CommentService.new_content := Some "hi";
              CommentService.new_parentId := Some "c2" |} in
  let out := CommentService.create (fun s => s) MoreSamples.sample_length
               (fun _ => ret tt) "c3" 400 p (available Sample.store) in
  CommentService.threaded (db out.2) /\
  comments Sample.store !! "c3" = None /\
  exists c,
    comments (db out.2) !! "c3" = Some c /\
    Comments.post_id c = "p1" /\
    Comments.parent_id c = Some "c2" /\
    Some 2 = Some (Comments.depth c) /\
    0 <= Comments.depth c <= 10.
Proof.
  intros p out.
  apply (create_keeps_threaded (fun s => s) MoreSamples.sample_length (fun _ => ret tt)
           "c3" 400 p Sample.store
           (Some {| CommentService.created_id := "c3";
                    CommentService.created_content := "hi";
                    CommentService.created_score := 0;
                    CommentService.created_depth := 2;
                    CommentService.created_created_at := 400 |})
           out.2).
  - intros postId w. reflexivity.
  - exact sample_threaded.
  - discriminate.
  - vm_compute. reflexivity.
Defined.

(** A key made from 32 bytes. *)
Lemma generated_key_validates_for_32_bytes :
  let random :=
    String.list_ascii_of_string "0123456789abcdef0123456789abcdef" in
  Auth.validateApiKey "moltbook_"
    (Some (Auth.generateApiKey "moltbook_" random)) = true /\
  String.length (Auth.generateApiKey "moltbook_" random) = (9 + 64)%nat.
Proof.
  intros random.
  apply (generated_key_validates "moltbook_" random).
  reflexivity.
Defined.

(** A request with the header [Bearer] and the sample key. *)
Lemma requireAuth_passes_only_with_agent_for_sample_key :
  let findByApiKey : string -> M (option AuthMiddleware.agent) :=
    fun _ => ret (Some MoreSamples.sample_agent) in
  let w := available Sample.store in
  exists token a,
    Auth.extractToken (Some (String.append "Bearer " MoreSamples.sample_key))
      = Some token /\
    Auth.validateApiKey "moltbook_" (Some token) = true /\
    findByApiKey token w = (Ok (Some a), w) /\
    {| AuthMiddleware.req_agent := Some MoreSamples.sample_agent;
       AuthMiddleware.req_token := Some MoreSamples.sample_key |} =
    {| AuthMiddleware.req_agent := Some a;
       AuthMiddleware.req_token := Some token |} /\
    (AuthMiddleware.requireClaimed
       {| AuthMiddleware.req_agent := Some MoreSamples.sample_agent;
          AuthMiddleware.req_token := Some MoreSamples.sample_key |} = None <->
     AuthMiddleware.is_claimed a = true).
Proof.
  intros findByApiKey w.
  apply (requireAuth_passes_only_with_agent "moltbook_" findByApiKey
           (Some (String.append "Bearer " MoreSamples.sample_key))
           {| AuthMiddleware.req_agent := None;
              AuthMiddleware.req_token := None |}
           {| AuthMiddleware.req_agent := Some MoreSamples.sample_agent;
              AuthMiddleware.req_token := Some MoreSamples.sample_key |} w w).
  vm_compute. reflexivity.
Defined.

End MoreInstances.
